(** * English -> Lunari translator (app.js): shallow embedding and properties

    The translation engine of [app.js] is embedded function by function.

    - A JavaScript string is the list of its UTF-16 code units ([list N]).
    - A JavaScript object used as a dictionary is a finite map of its own
      properties ([gmap]); property reads fall back to [Object.prototype].
    - The three regular expressions of the program are written in a small
      regular-expression syntax and run by a backtracking matcher that
      follows the continuation-passing matchers of ECMA-262 (22.2.2).
    - [toUpperCase], [toLowerCase] and the text of a built-in function
      belong to the host; they are the fields of the class [Host], with
      what the conversions do to ASCII strings.
    - Code that can raise [TypeError] returns a [completion]; code that reads
      or writes the globals ([activeDict], the two check boxes) threads a
      [store]. *)

From Stdlib Require Import Strings.Ascii Strings.String.
From stdpp Require Import gmap strings list fin_maps.

Set Default Proof Using "Type".
Set Warnings "-register-all".

(** ** Strings *)

Abbreviation jsstring := (list N).

(** [js "abc"] is the JavaScript string literal ["abc"] (ASCII only). *)
Definition js (s : string) : jsstring :=
  N_of_ascii <$> list_ascii_of_string s.

Definition is_upper_letter (c : N) : bool := ((65 <=? c) && (c <=? 90))%N.
Definition is_lower_letter (c : N) : bool := ((97 <=? c) && (c <=? 122))%N.

(** The class [[A-Za-z]]. *)
Definition is_letter (c : N) : bool := is_upper_letter c || is_lower_letter c.

(** The class [[^A-Za-z]]. *)
Definition is_not_letter (c : N) : bool := negb (is_letter c).

(** WhiteSpace and LineTerminator code points: what [\s] matches and what
    [String.prototype.trim] removes. *)
Definition is_space (c : N) : bool :=
  ((9 <=? c) && (c <=? 13) || (c =? 32) || (c =? 160) || (c =? 5760)
   || (8192 <=? c) && (c <=? 8202) || (c =? 8232) || (c =? 8233)
   || (c =? 8239) || (c =? 8287) || (c =? 12288) || (c =? 65279))%N.

(** The class [.] (no [s] flag): everything but a LineTerminator. *)
Definition is_dot (c : N) : bool :=
  negb ((c =? 10) || (c =? 13) || (c =? 8232) || (c =? 8233))%N.

Definition is_char (k c : N) : bool := (c =? k)%N.

Definition ascii_upper (c : N) : N := if is_lower_letter c then (c - 32)%N else c.
Definition ascii_lower (c : N) : N := if is_upper_letter c then (c + 32)%N else c.
Definition is_ascii (c : N) : bool := (c <? 128)%N.

Definition str_eqb (s t : jsstring) : bool := bool_decide (s = t).

(** [s.trim()]: leading and trailing white space removed. *)
Fixpoint trimStart (s : jsstring) : jsstring :=
  match s with
  | c :: t => if is_space c then trimStart t else s
  | [] => []
  end.

Definition trimEnd (s : jsstring) : jsstring := reverse (trimStart (reverse s)).

Definition trim (s : jsstring) : jsstring := trimEnd (trimStart s).

(** [s.endsWith(suffix)] *)
Definition endsWith (s suffix : jsstring) : bool :=
  str_eqb (drop (length s - length suffix) s) suffix.

(** [s.slice(0, -n)] *)
Definition slice_to_minus (n : nat) (s : jsstring) : jsstring :=
  take (length s - n) s.

(** [s.slice(1)] *)
Definition slice_from_1 (s : jsstring) : jsstring := drop 1 s.

(** [s.includes(" ")] *)
Definition includes_space (s : jsstring) : bool := existsb (is_char 32) s.

(** [s.split("\n")]: always at least one piece. *)
Fixpoint split_lines (s : jsstring) : list jsstring :=
  match s with
  | [] => [[]]
  | c :: t =>
      if is_char 10 c then [] :: split_lines t
      else match split_lines t with
           | l :: ls => (c :: l) :: ls
           | [] => [[c]]
           end
  end.

(** ** Regular expressions *)

(** The fragment of the pattern syntax the program uses.  A quantifier is
    only ever applied to a character class ([RRep p min greedy] is
    [p{min,}], or [p{min,}?] when [greedy] is false) or, as [?], to a
    group without captures ([ROpt r] is [(?:r)?]).  [RGroup n r] is the
    [n]-th capturing group; [RBol] and [REol] are [^] and [$] without the
    [m] flag. *)
Inductive regex : Type :=
  | RClass (p : N → bool)
  | RRep (p : N → bool) (min : nat) (greedy : bool)
  | ROpt (r : regex)
  | RSeq (r1 r2 : regex)
  | RAlt (r1 r2 : regex)
  | RGroup (n : nat) (r : regex)
  | RBol
  | REol.

(** A match state: the index reached, the input from there on, and the
    captures made so far (latest first). *)
Record mstate : Type := MState {
  endIndex : nat;
  rest : jsstring;
  captures : list (nat * jsstring)
}.

Definition cont : Type := mstate → option mstate.

(** RepeatMatcher of ECMA-262 for a character class and no upper bound:
    when [min] is reached, a greedy quantifier first tries one more
    character and falls back on the continuation; a lazy one does the
    opposite. *)
Fixpoint repeat_class (p : N → bool) (greedy : bool) (min : nat)
    (caps : list (nat * jsstring)) (c : cont) (i : nat) (s : jsstring)
    {struct s} : option mstate :=
  let again :=
    match s with
    | a :: t => if p a then repeat_class p greedy (pred min) caps c (S i) t else None
    | [] => None
    end in
  match min with
  | S _ => again
  | O =>
      if greedy
      then match again with Some z => Some z | None => c (MState i s caps) end
      else match c (MState i s caps) with Some z => Some z | None => again end
  end.

Fixpoint rmatch (r : regex) (x : mstate) (c : cont) : option mstate :=
  match r with
  | RClass p =>
      match rest x with
      | a :: t => if p a then c (MState (S (endIndex x)) t (captures x)) else None
      | [] => None
      end
  | RRep p min greedy => repeat_class p greedy min (captures x) c (endIndex x) (rest x)
  | ROpt r' =>
      match rmatch r' x (λ y, if endIndex y =? endIndex x then None else c y) with
      | Some z => Some z
      | None => c x
      end
  | RSeq r1 r2 => rmatch r1 x (λ y, rmatch r2 y c)
  | RAlt r1 r2 =>
      match rmatch r1 x c with
      | Some z => Some z
      | None => rmatch r2 x c
      end
  | RGroup n r' =>
      rmatch r' x (λ y,
        c (MState (endIndex y) (rest y)
             ((n, take (endIndex y - endIndex x) (rest x)) :: captures y)))
  | RBol => if endIndex x =? 0 then c x else None
  | REol => match rest x with [] => c x | _ :: _ => None end
  end.

(** One successful [RegExpBuiltinExec]: the text skipped before the match,
    the matched text, and the final state. *)
Record found_match : Type := FoundMatch {
  skipped : jsstring;
  matched : jsstring;
  final : mstate
}.

Definition skip_one (a : N) (m : found_match) : found_match :=
  FoundMatch (a :: skipped m) (matched m) (final m).

(** RegExpBuiltinExec for a pattern that is not sticky: try at [lastIndex],
    then at every later index up to the length of the input. *)
Fixpoint regexp_exec (r : regex) (lastIndex : nat) (s : jsstring) : option found_match :=
  match rmatch r (MState lastIndex s []) Some with
  | Some y => Some (FoundMatch [] (take (endIndex y - lastIndex) s) y)
  | None =>
      match s with
      | a :: t => skip_one a <$> regexp_exec r (S lastIndex) t
      | [] => None
      end
  end.

(** [re.test(s)] and [s.match(re)] for a pattern without the [g] flag. *)
Definition regexp_test (r : regex) (s : jsstring) : bool :=
  bool_decide (is_Some (regexp_exec r 0 s)).

(** The text captured by group [n], if the group took part in the match. *)
Fixpoint capture_of (n : nat) (caps : list (nat * jsstring)) : option jsstring :=
  match caps with
  | (k, v) :: caps' => if k =? n then Some v else capture_of n caps'
  | [] => None
  end.

Definition capture (n : nat) (m : found_match) : option jsstring :=
  capture_of n (captures (final m)).

(** The code unit [a] was passed over before the matches [ms]. *)
Definition skip_in (a : N) (ms : list found_match * jsstring) : list found_match * jsstring :=
  match ms.1 with
  | m :: ms' => (skip_one a m :: ms', ms.2)
  | [] => ([], a :: ms.2)
  end.

(** The successive matches of a pattern with the [g] flag, each with the
    text skipped before it, and the text left after the last one.  After an
    empty match the search resumes one code unit further.  Every round
    moves on by at least one code unit, so [S (length s)] rounds are enough
    ([find_all_fuel]). *)
Fixpoint find_all (fuel : nat) (r : regex) (lastIndex : nat) (s : jsstring)
    : list found_match * jsstring :=
  match fuel with
  | O => ([], s)
  | S fuel' =>
      match regexp_exec r lastIndex s with
      | None => ([], s)
      | Some m =>
          let y := final m in
          let more :=
            match matched m, rest y with
            | [], a :: t => skip_in a (find_all fuel' r (S (endIndex y)) t)
            | [], [] => ([], [])
            | _ :: _, _ => find_all fuel' r (endIndex y) (rest y)
            end in
          (m :: more.1, more.2)
      end
  end.

(** [s.match(re) || []] for a pattern with the [g] flag. *)
Definition match_global (r : regex) (s : jsstring) : list jsstring :=
  matched <$> (find_all (S (length s)) r 0 s).1.

(** [s.replace(re, by)] for a pattern with the [g] flag and a replacement
    without [$]. *)
Definition replace_global (r : regex) (by_ : jsstring) (s : jsstring) : jsstring :=
  let ms := find_all (S (length s)) r 0 s in
  concat ((λ m, skipped m ++ by_) <$> ms.1) ++ ms.2.

(** [/[A-Za-z]+(?:'[A-Za-z]+)?/] *)
Definition word_re : regex :=
  RSeq (RRep is_letter 1 true)
       (ROpt (RSeq (RClass (is_char 39)) (RRep is_letter 1 true))).

(** [/[A-Za-z]+(?:'[A-Za-z]+)?|[^A-Za-z]+/g] *)
Definition token_re : regex := RAlt word_re (RRep is_not_letter 1 true).

(** [/^[A-Za-z]+(?:'[A-Za-z]+)?$/] *)
Definition word_only_re : regex := RSeq RBol (RSeq word_re REol).

(** [/\s+/g] *)
Definition spaces_re : regex := RRep is_space 1 true.

(** [/^(.+?)\s*=\s*(.+)$/] *)
Definition line_re : regex :=
  RSeq RBol
    (RSeq (RGroup 1 (RRep is_dot 1 false))
       (RSeq (RRep is_space 0 true)
          (RSeq (RClass (is_char 61))
             (RSeq (RRep is_space 0 true)
                (RSeq (RGroup 2 (RRep is_dot 1 true)) REol))))).

(** ** Values, exceptions, the host *)

(** A built-in object reached through the prototype of a plain object. *)
Inductive builtin : Type :=
  | ObjectPrototype
  | BuiltinFunction (name : jsstring).

(** A JavaScript value as this program meets it: what [JSON.parse] yields,
    [undefined], and the built-ins of [Object.prototype].  A number is kept
    as what the program can observe of it: whether it is zero (the only
    falsy number [JSON.parse] yields) and the text it prints as.  An object
    lists its own properties, each name once. *)
Inductive jsval : Type :=
  | VUndefined
  | VNull
  | VBool (b : bool)
  | VNum (zero : bool) (text : jsstring)
  | VStr (s : jsstring)
  | VArr (items : list jsval)
  | VObj (fields : list (jsstring * jsval))
  | VBuiltin (b : builtin).

Inductive jserror : Type := TypeError.

Inductive completion (A : Type) : Type :=
  | Normal (a : A)
  | Throw (e : jserror).
Arguments Normal {A} a.
Arguments Throw {A} e.

#[global] Instance completion_ret : MRet completion := @Normal.
#[global] Instance completion_bind : MBind completion := λ A B f m,
  match m with
  | Normal a => f a
  | Throw e => Throw e
  end.

#[global] Instance completion_fmap : FMap completion := λ A B f m,
  match m with
  | Normal a => Normal (f a)
  | Throw e => Throw e
  end.

(** What the engine takes from its host: the two case conversions of
    [String.prototype] and the text a built-in function prints as.  On a
    string of ASCII code units the conversions act unit by unit on the
    letters. *)
Class Host : Type := {
  toUpperCase : jsstring → jsstring;
  toLowerCase : jsstring → jsstring;
  functionToString : jsstring → jsstring;
  toUpperCase_ascii s : forallb is_ascii s = true → toUpperCase s = ascii_upper <$> s;
  toLowerCase_ascii s : forallb is_ascii s = true → toLowerCase s = ascii_lower <$> s
}.

(** A host that converts the case of ASCII letters only. *)
Definition ascii_host : Host := {|
  toUpperCase s := ascii_upper <$> s;
  toLowerCase s := ascii_lower <$> s;
  functionToString name := js "function " ++ name ++ js "() { [native code] }";
  toUpperCase_ascii _ _ := eq_refl;
  toLowerCase_ascii _ _ := eq_refl
|}.

(** ToBoolean *)
Definition truthy (v : jsval) : bool :=
  match v with
  | VUndefined | VNull => false
  | VBool b => b
  | VNum zero _ => negb zero
  | VStr s => negb (str_eqb s [])
  | VArr _ | VObj _ | VBuiltin _ => true
  end.

Inductive jstype : Type :=
  | TUndefined | TObject | TBoolean | TNumber | TString | TFunction.

#[global] Instance jstype_eq_dec : EqDecision jstype.
Proof. solve_decision. Defined.

Definition typeof (v : jsval) : jstype :=
  match v with
  | VUndefined => TUndefined
  | VNull | VArr _ | VObj _ | VBuiltin ObjectPrototype => TObject
  | VBool _ => TBoolean
  | VNum _ _ => TNumber
  | VStr _ => TString
  | VBuiltin (BuiltinFunction _) => TFunction
  end.

Fixpoint field (k : jsstring) (fields : list (jsstring * jsval)) : jsval :=
  match fields with
  | (k', v) :: fields' => if str_eqb k' k then v else field k fields'
  | [] => VUndefined
  end.

Fixpoint has_field (k : jsstring) (fields : list (jsstring * jsval)) : bool :=
  match fields with
  | (k', _) :: fields' => str_eqb k' k || has_field k fields'
  | [] => false
  end.

(** The function-valued properties of [Object.prototype]. *)
Definition object_prototype_functions : list jsstring :=
  js <$> ["constructor"; "hasOwnProperty"; "isPrototypeOf";
          "propertyIsEnumerable"; "toLocaleString"; "toString"; "valueOf";
          "__defineGetter__"; "__defineSetter__"; "__lookupGetter__";
          "__lookupSetter__"]%string.

(** [o[k]] for a plain object given by its own properties: an own property
    first, then what [Object.prototype] has under that name. *)
Definition get_property (o : gmap jsstring jsval) (k : jsstring) : jsval :=
  match o !! k with
  | Some v => v
  | None =>
      if str_eqb k (js "__proto__") then VBuiltin ObjectPrototype
      else if bool_decide (k ∈ object_prototype_functions) then VBuiltin (BuiltinFunction k)
      else VUndefined
  end.

(** [o[k] = v] for a plain object and a primitive value [v] (here always a
    string): without an own property of that name, the key [__proto__]
    reaches the setter of [Object.prototype], which ignores a value that is
    neither an object nor null. *)
Definition set_property {V : Type} (k : jsstring) (v : V) (o : gmap jsstring V)
    : gmap jsstring V :=
  if str_eqb k (js "__proto__") && bool_decide (o !! k = None) then o
  else <[k := v]> o.

(** [entry.l], for an [entry] whose [typeof] is ["object"] and that is not
    null: neither arrays nor [Object.prototype] have a property [l]. *)
Definition get_l (entry : jsval) : jsval :=
  match entry with
  | VObj fields => field (js "l") fields
  | _ => VUndefined
  end.

(** [v[0]] *)
Definition get_0 (v : jsval) : completion jsval :=
  match v with
  | VUndefined | VNull => Throw TypeError
  | VStr s => Normal (match s with c :: _ => VStr [c] | [] => VUndefined end)
  | VArr items => Normal (match items with x :: _ => x | [] => VUndefined end)
  | VObj fields => Normal (field (js "0") fields)
  | VBool _ | VNum _ _ | VBuiltin _ => Normal VUndefined
  end.

(** ** The globals *)

(** A dictionary after [ensureDictShape]: [words] and [phrases] are plain
    objects ([meta] is never read), each given by its own properties.
    Their values are whatever the JSON file held.  (A JSON array in the
    place of [words] or [phrases], which [ensureDictShape] lets through, is
    outside this model.) *)
Record dict : Type := Dict {
  words : gmap jsstring jsval;
  phrases : gmap jsstring jsval
}.

(** What [parseQuickAddLines] builds. *)
Record adds : Type := Adds {
  add_words : gmap jsstring jsstring;
  add_phrases : gmap jsstring jsstring
}.

(** The globals the engine reads and writes: [activeDict] ([None] is
    null), the two check boxes, and the dictionary kept under [LS_KEY] in
    localStorage. *)
Record store : Type := Store {
  activeDict : option dict;
  preferPhrases : bool;
  markUnknown : bool;
  savedDict : option dict
}.

(** A computation over the globals that may raise. *)
Definition JS (A : Type) : Type := store → completion A * store.

#[global] Instance JS_ret : MRet JS := λ A a σ, (Normal a, σ).
#[global] Instance JS_bind : MBind JS := λ A B f m σ,
  match m σ with
  | (Normal a, σ') => f a σ'
  | (Throw e, σ') => (Throw e, σ')
  end.

Definition read {A : Type} (f : store → A) : JS A := λ σ, (Normal (f σ), σ).
Definition write (f : store → store) : JS unit := λ σ, (Normal tt, f σ).
Definition lift {A : Type} (m : completion A) : JS A := λ σ, (m, σ).

(** [xs.map(f)] for a callback over the globals. *)
Fixpoint js_map {A B : Type} (f : A → JS B) (xs : list A) : JS (list B) :=
  match xs with
  | [] => mret []
  | x :: xs' => y ← f x; ys ← js_map f xs'; mret (y :: ys)
  end.

Section WithHost.
Context `{Host}.

(** [v.toUpperCase()], [v.toLowerCase()]: only strings have these methods;
    calling a missing or non-callable property raises [TypeError]. *)
Definition call_toUpperCase (v : jsval) : completion jsstring :=
  match v with
  | VStr s => Normal (toUpperCase s)
  | _ => Throw TypeError
  end.

Definition call_toLowerCase (v : jsval) : completion jsstring :=
  match v with
  | VStr s => Normal (toLowerCase s)
  | _ => Throw TypeError
  end.

(** [v.slice(1)]: strings and arrays have the method. *)
Definition call_slice_1 (v : jsval) : completion jsval :=
  match v with
  | VStr s => Normal (VStr (slice_from_1 s))
  | VArr items => Normal (VArr (drop 1 items))
  | _ => Throw TypeError
  end.

(** ToString.  An array prints as its elements joined by commas; an object
    with an own property [toString] (never callable after [JSON.parse]) has
    no primitive value. *)
Fixpoint ToString (v : jsval) : completion jsstring :=
  match v with
  | VUndefined => Normal (js "undefined")
  | VNull => Normal (js "null")
  | VBool b => Normal (if b then js "true" else js "false")
  | VNum _ text => Normal text
  | VStr s => Normal s
  | VArr items =>
      (fix join_comma (l : list jsval) : completion jsstring :=
         match l with
         | [] => Normal []
         | x :: l' =>
             a ← match x with VUndefined | VNull => Normal [] | _ => ToString x end;
             match l' with
             | [] => Normal a
             | _ :: _ => b ← join_comma l'; Normal (a ++ js "," ++ b)
             end
         end) items
  | VObj fields =>
      if has_field (js "toString") fields then Throw TypeError
      else Normal (js "[object Object]")
  | VBuiltin ObjectPrototype => Normal (js "[object Object]")
  | VBuiltin (BuiltinFunction name) => Normal (functionToString name)
  end.

(** [out.join("")] *)
Fixpoint join_empty (out : list jsval) : completion jsstring :=
  match out with
  | [] => Normal []
  | x :: out' =>
      a ← match x with VUndefined | VNull => Normal [] | _ => ToString x end;
      b ← join_empty out';
      Normal (a ++ b)
  end.

(** ** app.js, the pure functions *)

Definition normalizeSpaces (s : jsstring) : jsstring :=
  replace_global spaces_re (js " ") (trim s).

Definition isAllCaps (s : jsstring) : bool :=
  (1 <? length s) && str_eqb s (toUpperCase s).

Definition isTitleCase (s : jsstring) : bool :=
  (0 <? length s) && str_eqb (take 1 s) (toUpperCase (take 1 s))
  && str_eqb (slice_from_1 s) (toLowerCase (slice_from_1 s)).

Definition applyCasing (sourceToken : jsstring) (translatedToken : jsval)
    : completion jsval :=
  if negb (truthy translatedToken) then Normal translatedToken
  else if isAllCaps sourceToken then
    u ← call_toUpperCase translatedToken; Normal (VStr u)
  else if isTitleCase sourceToken then
    c0 ← get_0 translatedToken;
    a ← call_toUpperCase c0;
    tl ← call_slice_1 translatedToken;
    b ← call_toLowerCase tl;
    Normal (VStr (a ++ b))
  else if str_eqb sourceToken (toLowerCase sourceToken) then
    l ← call_toLowerCase translatedToken; Normal (VStr l)
  else Normal translatedToken.

Definition tokenizeKeepPunct (input : jsstring) : list jsstring :=
  match_global token_re input.

(** ** app.js, the functions over the globals *)

Definition lookupWord (englishWord : jsstring) : JS jsval :=
  let key := toLowerCase englishWord in
  d ← read activeDict;
  let entry :=
    match d with
    | Some d => get_property (words d) key
    | None => VUndefined
    end in
  if negb (truthy entry) then mret VNull
  else if bool_decide (typeof entry = TString) then mret entry
  else if bool_decide (typeof entry = TObject) && truthy (get_l entry) then mret (get_l entry)
  else mret VNull.

Definition lookupPhrase (englishText : jsstring) : JS jsval :=
  let key := toLowerCase (normalizeSpaces englishText) in
  d ← read activeDict;
  let phrase :=
    match d with
    | Some d => get_property (phrases d) key
    | None => VUndefined
    end in
  if negb (truthy phrase) then mret VNull
  else mret phrase.

(** The callback of [tokens.map] in [translateText]. *)
Definition translateToken (tok : jsstring) : JS jsval :=
  if regexp_test word_only_re tok then
    let base := toLowerCase tok in
    let possessive := endsWith base (js "'s") && (2 <? length base) in
    let baseWord := if possessive then slice_to_minus 2 base else base in
    found ← lookupWord baseWord;
    if negb (truthy found) then
      mark ← read markUnknown;
      mret (VStr (if mark : bool then js "[" ++ tok ++ js "]" else tok))
    else
      translated ← lift (applyCasing tok found);
      if possessive then
        t ← lift (ToString translated);
        mret (VStr (t ++ js "-de"))
      else mret translated
  else mret (VStr tok).

(** Steps 2 and 3 of [translateText]: word by word, then the phrase of the
    whole input when phrases are not preferred. *)
Definition translateWords (prefer : bool) (englishText : jsstring) : JS jsval :=
  let tokens := tokenizeKeepPunct englishText in
  out ← js_map translateToken tokens;
  joined ← lift (join_empty out);
  if negb prefer then
    phraseHit ← lookupPhrase englishText;
    if truthy phraseHit then mret phraseHit else mret (VStr joined)
  else mret (VStr joined).

Definition translateText (englishText : jsstring) : JS jsval :=
  d ← read activeDict;
  if negb (bool_decide (is_Some d)) then mret (VStr englishText)
  else
    prefer ← read preferPhrases;
    if prefer : bool then
      phraseHit ← lookupPhrase englishText;
      if truthy phraseHit then mret phraseHit
      else translateWords prefer englishText
    else translateWords prefer englishText.

(** [ensureDictShape], on a value that is null or already has the shape
    of [dict]: an object whose [words] and [phrases] are plain objects. *)
Definition ensureDictShape (d : option dict) : dict :=
  match d with
  | Some d => d
  | None => Dict ∅ ∅
  end.

(** [saveCustomDictToLS]; the storage is taken to accept the write. *)
Definition saveCustomDictToLS (d : dict) : JS unit :=
  write (λ σ, Store (activeDict σ) (preferPhrases σ) (markUnknown σ) (Some d)).

(** [setActiveDict], without the status line of the page. *)
Definition setActiveDict (d : option dict) : JS unit :=
  write (λ σ, Store (Some (ensureDictShape d)) (preferPhrases σ) (markUnknown σ) (savedDict σ)).

(** [m[n]] handed to [normalizeSpaces]: a group that took no part in the
    match is [undefined], and trimming it raises. *)
Definition group (n : nat) (m : found_match) : completion jsstring :=
  match capture n m with
  | Some s => Normal s
  | None => Throw TypeError
  end.

(** The body of the loop of [parseQuickAddLines]. *)
Definition parseQuickAddLine (line : jsstring) (a : adds) : completion adds :=
  match regexp_exec line_re 0 line with
  | None => Normal a
  | Some m =>
      m1 ← group 1 m;
      let left := toLowerCase (normalizeSpaces m1) in
      m2 ← group 2 m;
      let right := normalizeSpaces m2 in
      if str_eqb left [] || str_eqb right [] then Normal a
      else if includes_space left
      then Normal (Adds (add_words a) (set_property left right (add_phrases a)))
      else Normal (Adds (set_property left right (add_words a)) (add_phrases a))
  end.

Fixpoint parseQuickAddLoop (lines : list jsstring) (a : adds) : completion adds :=
  match lines with
  | [] => Normal a
  | line :: lines' => a' ← parseQuickAddLine line a; parseQuickAddLoop lines' a'
  end.

Definition parseQuickAddLines (raw : jsstring) : completion adds :=
  let lines := filter (λ l, l ≠ []) (trim <$> split_lines raw) in
  parseQuickAddLoop lines (Adds ∅ ∅).

(** The two loops of [mergeAddsIntoDict] over [Object.entries]: the keys
    of an object are distinct, so the order of the assignments is
    immaterial. *)
Definition assign_entries (entries : gmap jsstring jsstring) (o : gmap jsstring jsval)
    : gmap jsstring jsval :=
  map_fold (λ k v o, set_property k (VStr v) o) o entries.

Definition mergeAddsIntoDict (a : adds) : JS unit :=
  d0 ← read activeDict;
  let d := ensureDictShape d0 in
  let d := Dict (assign_entries (add_words a) (words d)) (phrases d) in
  let d := Dict (words d) (assign_entries (add_phrases a) (phrases d)) in
  _ ← saveCustomDictToLS d;
  setActiveDict (Some d).

(** The click handler of the "add lines" button, up to the merge; it
    returns the count shown to the user. *)
Definition addLinesClick (quickAdd : jsstring) : JS nat :=
  a ← lift (parseQuickAddLines quickAdd);
  let count := size (add_words a) + size (add_phrases a) in
  if count =? 0 then mret count
  else _ ← mergeAddsIntoDict a; mret count.

End WithHost.

(** Running a computation: its outcome and the globals it leaves. *)
Definition outcome {A : Type} (m : JS A) (σ : store) : completion A := (m σ).1.
Definition after {A : Type} (m : JS A) (σ : store) : store := (m σ).2.

(** ** The vocabulary of the properties *)

(** *** Matching *)

(** Every class of the pattern only accepts code units in [P]. *)
Fixpoint classes_in (P : N → Prop) (r : regex) : Prop :=
  match r with
  | RClass p | RRep p _ _ => ∀ a, p a = true → P a
  | ROpt r' | RGroup _ r' => classes_in P r'
  | RSeq r1 r2 | RAlt r1 r2 => classes_in P r1 ∧ classes_in P r2
  | RBol | REol => True
  end.

(** The least number of code units a match of the pattern takes. *)
Fixpoint min_length (r : regex) : nat :=
  match r with
  | RClass _ => 1
  | RRep _ min _ => min
  | ROpt _ | RBol | REol => 0
  | RSeq r1 r2 => min_length r1 + min_length r2
  | RAlt r1 r2 => min_length r1 `min` min_length r2
  | RGroup _ r' => min_length r'
  end.

(** The groups every match of the pattern goes through. *)
Fixpoint groups (r : regex) : list nat :=
  match r with
  | RGroup n r' => n :: groups r'
  | RSeq r1 r2 => groups r1 ++ groups r2
  | _ => []
  end.

(** [y] is reached from [x] by reading the code units [w]. *)
Definition reads (x : mstate) (w : jsstring) (y : mstate) : Prop :=
  rest x = w ++ rest y ∧ endIndex y = endIndex x + length w.

(** Group [n] has a capture in [x]. *)
Definition captured (n : nat) (x : mstate) : Prop := is_Some (capture_of n (captures x)).

(** A code unit of a word token: a letter or the apostrophe. *)
Definition word_char (c : N) : Prop := is_letter c = true ∨ c = 39%N.

(** *** Lookups *)

(** What [lookupWord] makes of the value stored under the key. *)
Definition translation_of (stored : option jsval) : jsval :=
  match stored with
  | Some (VStr s) => if str_eqb s [] then VNull else VStr s
  | Some (VObj fields) => if truthy (field (js "l") fields) then field (js "l") fields else VNull
  | _ => VNull
  end.

(** Every stored word has a string for translation, or none. *)
Definition string_translations (d : dict) : Prop :=
  ∀ k v, words d !! k = Some v →
    translation_of (Some v) = VNull ∨ ∃ s, translation_of (Some v) = VStr s.

(** A stored value that holds no translation: the empty string, or an
    object whose field [l] is absent or the empty string. *)
Definition empty_translation (v : jsval) : Prop :=
  v = VStr []
  ∨ ∃ fields, v = VObj fields
      ∧ (has_field (js "l") fields = false ∨ field (js "l") fields = VStr []).

Section Vocabulary.
Context `{Host}.

(** *** Tokens *)

(** Whether [translateToken] strips a possessive suffix from a token. *)
Definition isPossessive (tok : jsstring) : bool :=
  endsWith (toLowerCase tok) (js "'s") && (2 <? length (toLowerCase tok)).

(** The key under which [translateToken] looks a word token up. *)
Definition lookupKey (tok : jsstring) : jsstring :=
  let base := toLowerCase tok in
  if endsWith base (js "'s") && (2 <? length base) then slice_to_minus 2 base else base.

(** What [translateToken] returns for a word token whose lookup gave
    [found]. *)
Definition translated_token (mark : bool) (tok : jsstring) (found : jsval)
    : completion jsval :=
  if truthy found then
    translated ← applyCasing tok found;
    if isPossessive tok then
      t ← ToString translated; Normal (VStr (t ++ js "-de"))
    else Normal translated
  else Normal (VStr (if mark then js "[" ++ tok ++ js "]" else tok)).

(** The word-by-word result of [translateText]: the value of [joined]. *)
Definition wordByWord (englishText : jsstring) : JS jsstring :=
  out ← js_map translateToken (tokenizeKeepPunct englishText);
  lift (join_empty out).

(** A token as an unknown word is shown when unknown words are marked. *)
Definition marked (tok : jsstring) : jsstring :=
  if regexp_test word_only_re tok then js "[" ++ tok ++ js "]" else tok.

(** *** Casing, in the words of the casing rules *)

Definition entirely_upper (tok : jsstring) : Prop := tok = toUpperCase tok.
Definition entirely_lower (tok : jsstring) : Prop := tok = toLowerCase tok.
Definition title_case (tok : jsstring) : Prop :=
  0 < length tok
  ∧ entirely_upper (take 1 tok)
  ∧ entirely_lower (drop 1 tok).

(** *** Added lines *)

(** The lines [parseQuickAddLines] loops over. *)
Definition lines_of (raw : jsstring) : list jsstring :=
  filter (λ l, l ≠ []) (trim <$> split_lines raw).

(** What a line adds: the key and the value, if the line has the form
    [left = right] with both sides not empty after normalizing. *)
Definition line_entry (line : jsstring) : option (jsstring * jsstring) :=
  m ← regexp_exec line_re 0 line;
  m1 ← capture 1 m;
  m2 ← capture 2 m;
  let left := toLowerCase (normalizeSpaces m1) in
  let right := normalizeSpaces m2 in
  if str_eqb left [] || str_eqb right [] then None else Some (left, right).

(** The assignment a line with the entry [e] makes. *)
Definition add_entry (a : adds) (e : jsstring * jsstring) : adds :=
  if includes_space e.1
  then Adds (add_words a) (set_property e.1 e.2 (add_phrases a))
  else Adds (set_property e.1 e.2 (add_words a)) (add_phrases a).

(** The value the last of the entries with key [k] gives it. *)
Fixpoint named (k : jsstring) (es : list (jsstring * jsstring)) : option jsstring :=
  match es with
  | [] => None
  | (k', v) :: es' =>
      match named k es' with
      | Some v' => Some v'
      | None => if str_eqb k' k then Some v else None
      end
  end.

End Vocabulary.

(** *** Runs of code units *)

(** The longest prefix of [s] made of code units in [p], and what follows
    it. *)
Fixpoint run (p : N → bool) (s : jsstring) : jsstring :=
  match s with
  | a :: t => if p a then a :: run p t else []
  | [] => []
  end.

Fixpoint after_run (p : N → bool) (s : jsstring) : jsstring :=
  match s with
  | a :: t => if p a then after_run p t else s
  | [] => []
  end.

Definition is_not_space (c : N) : bool := negb (is_space c).

(** A token without any letter. *)
Definition letter_free (tok : jsstring) : Prop := Forall (λ c, is_letter c = false) tok.

(** The tail of a word at [r], the text after a run of letters: an
    apostrophe and the run of letters after it, when a letter follows the
    apostrophe; and the text after the tail. *)
Definition word_tail (r : jsstring) : jsstring * jsstring :=
  match r with
  | q :: b :: t =>
      if is_char 39 q && is_letter b
      then (q :: b :: run is_letter t, after_run is_letter t)
      else ([], r)
  | _ => ([], r)
  end.

(** The first token of a non-empty text by longest match, and the text
    after it: from a letter, the run of letters with its tail; from
    anything else, the run of code units that are not letters. *)
Definition next_token (s : jsstring) : jsstring * jsstring :=
  match s with
  | a :: _ =>
      if is_letter a
      then (run is_letter s ++ (word_tail (after_run is_letter s)).1,
            (word_tail (after_run is_letter s)).2)
      else (run is_not_letter s, after_run is_not_letter s)
  | [] => ([], [])
  end.

(** Tokens by longest match, at most [fuel] of them. *)
Fixpoint scan (fuel : nat) (s : jsstring) : list jsstring :=
  match fuel, s with
  | S fuel', _ :: _ => (next_token s).1 :: scan fuel' (next_token s).2
  | _, _ => []
  end.

(** *** White space *)

(** Every run of white space made one space. *)
Fixpoint collapse (s : jsstring) : jsstring :=
  match s with
  | [] => []
  | a :: t =>
      if is_space a then
        match t with
        | b :: _ => if is_space b then collapse t else 32%N :: collapse t
        | [] => [32%N]
        end
      else a :: collapse t
  end.

(** Every white-space code unit of [s] is a space, and is followed by a
    code unit that is not white space. *)
Fixpoint spaced (s : jsstring) : Prop :=
  match s with
  | [] => True
  | a :: t =>
      (is_space a = true → a = 32%N ∧ ∃ d t', t = d :: t' ∧ is_space d = false)
      ∧ spaced t
  end.

(** Normalized text: it does not begin with white space, and its only
    white space is single spaces between other code units. *)
Definition normalized (s : jsstring) : Prop :=
  (∀ a t, s = a :: t → is_space a = false) ∧ spaced s.

(** *** Sample dictionaries *)

(** [{"words": {"hello": "ya", "world": {"l": "mona"}, "alex": "aleks",
                "is": "si"},
      "phrases": {"good morning": "yara muna"}}] *)
Definition sample_dict : dict :=
  Dict (<[js "hello" := VStr (js "ya")]>
         (<[js "world" := VObj [(js "l", VStr (js "mona"))]]>
           (<[js "alex" := VStr (js "aleks")]>
             {[ js "is" := VStr (js "si") ]})))
       {[ js "good morning" := VStr (js "yara muna") ]}.

(** [{"words": {"hi": "", "yo": {}}, "phrases": {"good morning": ""}}] *)
Definition hollow_dict : dict :=
  Dict (<[js "hi" := VStr []]> {[ js "yo" := VObj [] ]})
       {[ js "good morning" := VStr [] ]}.

(** [{"words": {"hi": {"l": 5}}, "phrases": {}}] *)
Definition number_dict : dict :=
  Dict {[ js "hi" := VObj [(js "l", VNum false (js "5"))] ]} ∅.

(** [{"words": {"hi": {"l": 5}}, "phrases": {"hi": "yo"}}] *)
Definition number_phrase_dict : dict :=
  Dict {[ js "hi" := VObj [(js "l", VNum false (js "5"))] ]}
       {[ js "hi" := VStr (js "yo") ]}.

(** [{"words": {}, "phrases": {}}] *)
Definition empty_dict : dict := Dict ∅ ∅.

Definition sample_store (prefer mark : bool) : store :=
  Store (Some sample_dict) prefer mark None.

Definition hollow_store (prefer mark : bool) : store :=
  Store (Some hollow_dict) prefer mark None.

(** ** Tactics *)

(** Unfolding the computations over the globals. *)
Ltac js_run :=
  unfold outcome, after, mbind, JS_bind, mret, JS_ret, read, write, lift; simpl.

(** Case conversion of strings of ASCII code units. *)
Ltac host_ascii :=
  repeat first [ rewrite toUpperCase_ascii by reflexivity
               | rewrite toLowerCase_ascii by reflexivity ].

(** ** The matcher *)

Lemma reads_refl x : reads x [] x.
Proof. split; [done | simpl; lia]. Qed.

Lemma reads_trans x w1 y w2 z :
  reads x w1 y → reads y w2 z → reads x (w1 ++ w2) z.
Proof.
  intros [Hr1 Hi1] [Hr2 Hi2]. split.
  - by rewrite Hr1, Hr2, (assoc_L (++)).
  - rewrite length_app. lia.
Qed.

Lemma repeat_class_reads (P : N → Prop) p greedy caps c :
  (∀ a, p a = true → P a) →
  ∀ s min i z,
    repeat_class p greedy min caps c i s = Some z →
    ∃ w y, c y = Some z ∧ reads (MState i s caps) w y
           ∧ Forall P w ∧ min ≤ length w.
Proof.
  intros Hp. induction s as [|a t IH]; intros min i z Hz.
  - destruct min as [|min]; simpl in Hz; [|done].
    exists [], (MState i [] caps). split_and!; [|apply reads_refl|constructor|done].
    by destruct greedy, (c (MState i [] caps)).
  - assert (Hagain : ∀ z', (if p a then repeat_class p greedy (pred min) caps c (S i) t else None) = Some z' →
        ∃ w y, c y = Some z' ∧ reads (MState i (a :: t) caps) w y
               ∧ Forall P w ∧ min ≤ length w).
    { intros z' Hz'. destruct (p a) eqn:Hpa; [|done].
      destruct (IH _ _ _ Hz') as (w & y & Hc & [Hr Hi] & HP & Hlen).
      exists (a :: w), y. split_and!; [done| |constructor; auto|simpl; lia].
      split; simpl in *; [by rewrite Hr | lia]. }
    destruct min as [|min]; simpl in Hz; [|by apply Hagain].
    assert (Hstop : ∀ z', c (MState i (a :: t) caps) = Some z' →
        ∃ w y, c y = Some z' ∧ reads (MState i (a :: t) caps) w y
               ∧ Forall P w ∧ 0 ≤ length w).
    { intros z' Hz'. exists [], (MState i (a :: t) caps).
      split_and!; [done|apply reads_refl|constructor|simpl; lia]. }
    destruct greedy.
    + destruct (if p a then _ else _) as [z'|] eqn:Hag.
      * simplify_eq. by apply Hagain.
      * by apply Hstop.
    + destruct (c (MState i (a :: t) caps)) as [z'|] eqn:Hc.
      * simplify_eq. by apply Hstop.
      * by apply Hagain.
Qed.

(** A successful match reads a stretch of the input, made of code units
    the classes of the pattern accept, and hands the state reached to its
    continuation. *)
Lemma rmatch_reads (P : N → Prop) r :
  classes_in P r →
  ∀ x c z,
    rmatch r x c = Some z →
    ∃ w y, c y = Some z ∧ reads x w y ∧ Forall P w ∧ min_length r ≤ length w.
Proof.
  induction r as [p|p min greedy|r IH|r1 IH1 r2 IH2|r1 IH1 r2 IH2|n r IH| |];
    simpl; intros HP x c z Hz.
  - destruct x as [i [|a t] caps]; simpl in *; [done|].
    destruct (p a) eqn:Hpa; [|done].
    eexists [a], _. split_and!; [done| |by repeat constructor; auto|done].
    split; simpl; [done|lia].
  - destruct x as [i s caps]. by eapply repeat_class_reads.
  - destruct (rmatch r x _) as [z'|] eqn:Hr.
    + simplify_eq. destruct (IH HP _ _ _ Hr) as (w & y & Hc & Hreads & HPw & _).
      exists w, y. split_and!; [|done|done|lia]. by destruct (_ =? _).
    + exists [], x. split_and!; [done|apply reads_refl|constructor|done].
  - destruct HP as [HP1 HP2].
    destruct (IH1 HP1 _ _ _ Hz) as (w1 & y1 & Hc1 & Hreads1 & HPw1 & Hlen1).
    destruct (IH2 HP2 _ _ _ Hc1) as (w2 & y2 & Hc2 & Hreads2 & HPw2 & Hlen2).
    exists (w1 ++ w2), y2. split_and!; [done|by eapply reads_trans|by apply Forall_app|].
    rewrite length_app. lia.
  - destruct HP as [HP1 HP2]. destruct (rmatch r1 x c) as [z'|] eqn:Hr1.
    + simplify_eq. destruct (IH1 HP1 _ _ _ Hr1) as (w & y & ? & ? & ? & ?).
      exists w, y. split_and!; [done..|lia].
    + destruct (IH2 HP2 _ _ _ Hz) as (w & y & ? & ? & ? & ?).
      exists w, y. split_and!; [done..|lia].
  - destruct (IH HP _ _ _ Hz) as (w & y & Hc & [Hr Hi] & HPw & Hlen).
    eexists w, _. split_and!; [exact Hc| |done|done]. by split.
  - destruct (endIndex x =? 0); [|done].
    exists [], x. split_and!; [done|apply reads_refl|constructor|done].
  - destruct (rest x) eqn:Hrest; [|done].
    exists [], x. split_and!; [done|apply reads_refl|constructor|done].
Qed.

(** ** Searching *)

Lemma classes_in_True r : classes_in (λ _, True) r.
Proof. induction r; simpl; auto. Qed.

(** A successful search splits the input into the text skipped, the text
    matched and the text left. *)
Lemma regexp_exec_splits r :
  ∀ s i m,
    regexp_exec r i s = Some m →
    s = skipped m ++ matched m ++ rest (final m)
    ∧ endIndex (final m) = i + length (skipped m) + length (matched m).
Proof.
  assert (Hhere : ∀ s i y, rmatch r (MState i s []) Some = Some y →
    s = take (endIndex y - i) s ++ rest y
    ∧ endIndex y = i + 0 + length (take (endIndex y - i) s)).
  { intros s i y Hy.
    destruct (rmatch_reads _ _ (classes_in_True r) _ _ _ Hy)
      as (w & y' & [= ->] & [Hrest Hidx] & _). simpl in Hrest, Hidx.
    rewrite Hidx. replace (i + length w - i) with (length w) by lia.
    rewrite Hrest, take_app_length. split; [done|lia]. }
  induction s as [|a t IH]; intros i m Hm; cbn [regexp_exec] in Hm.
  - destruct (rmatch r _ _) as [y|] eqn:Hy; [|done]. simplify_eq. simpl.
    by apply Hhere.
  - destruct (rmatch r _ _) as [y|] eqn:Hy.
    + simplify_eq. simpl. by apply Hhere.
    + destruct (regexp_exec r (S i) t) as [m'|] eqn:Hm'; [|done].
      injection Hm as <-. destruct (IH _ _ Hm') as [Ht Hidx]. simpl.
      split; [by rewrite Ht at 1|lia].
Qed.

(** The search for all matches needs no more rounds than the input has
    code units, plus one: more fuel changes nothing. *)
Lemma find_all_fuel r :
  ∀ fuel1 fuel2 s i,
    length s < fuel1 → length s < fuel2 →
    find_all fuel1 r i s = find_all fuel2 r i s.
Proof.
  induction fuel1 as [|fuel1 IH]; intros fuel2 s i H1 H2; [lia|].
  destruct fuel2 as [|fuel2]; [lia|]. cbn [find_all].
  destruct (regexp_exec r i s) as [m|] eqn:Hm; [|done].
  destruct (regexp_exec_splits _ _ _ _ Hm) as [Hs _].
  apply (f_equal length) in Hs. rewrite !length_app in Hs.
  destruct (matched m) as [|b w] eqn:Hw.
  - destruct (rest (final m)) as [|a t] eqn:Hrest; [done|].
    simpl in Hs. rewrite (IH fuel2) by lia. done.
  - simpl in Hs. rewrite (IH fuel2) by lia. done.
Qed.

(** ** The tokenizer *)

Lemma repeat_class_greedy_total p caps c :
  (∀ y, is_Some (c y)) →
  ∀ s i, is_Some (repeat_class p true 0 caps c i s).
Proof.
  intros Hc s i. destruct s as [|a t]; simpl.
  - apply Hc.
  - destruct (if p a then _ else _); [done | apply Hc].
Qed.

Lemma repeat_class_plus_total p caps c a t i :
  (∀ y, is_Some (c y)) → p a = true →
  is_Some (repeat_class p true 1 caps c i (a :: t)).
Proof.
  intros Hc Hpa. simpl. rewrite Hpa. by apply repeat_class_greedy_total.
Qed.

(** At every index before the end of the input the token pattern matches,
    and the match is not empty. *)
Lemma token_re_matches i a t :
  ∃ w y, rmatch token_re (MState i (a :: t) []) Some = Some y
         ∧ reads (MState i (a :: t) []) w y ∧ w ≠ [].
Proof.
  assert (Hsome : is_Some (rmatch token_re (MState i (a :: t) []) Some)).
  { set (k := λ y, rmatch (ROpt (RSeq (RClass (is_char 39)) (RRep is_letter 1 true))) y Some).
    assert (Hk : ∀ y, is_Some (k y)).
    { intros y. unfold k. cbn [rmatch].
      by destruct (match rest y with [] => _ | _ => _ end). }
    change (is_Some (match repeat_class is_letter true 1 [] k i (a :: t) with
                     | Some z => Some z
                     | None => repeat_class is_not_letter true 1 [] Some i (a :: t)
                     end)).
    destruct (is_letter a) eqn:Ha.
    - by destruct (repeat_class_plus_total is_letter [] k a t i Hk Ha) as [z ->].
    - replace (repeat_class is_letter true 1 [] k i (a :: t)) with (@None mstate)
        by (simpl; by rewrite Ha).
      apply repeat_class_plus_total; [by eauto|].
      unfold is_not_letter. by rewrite Ha. }
  destruct Hsome as [y Hy].
  destruct (rmatch_reads _ _ (classes_in_True token_re) _ _ _ Hy)
    as (w & y' & [= ->] & Hreads & _ & Hlen).
  exists w, y. split_and!; [done..|]. intros ->. simpl in Hlen. lia.
Qed.

Lemma token_re_at_end i : rmatch token_re (MState i [] []) Some = None.
Proof. done. Qed.

Lemma find_all_token_re fuel :
  ∀ s i, length s < fuel →
    ∃ ms, find_all fuel token_re i s = (ms, [])
          ∧ concat (matched <$> ms) = s
          ∧ Forall (λ m, skipped m = []) ms.
Proof.
  induction fuel as [|fuel IH]; intros s i Hlen; [lia|].
  destruct s as [|a t].
  { exists []. cbn [find_all regexp_exec]. by rewrite token_re_at_end. }
  destruct (token_re_matches i a t) as (w & y & Hy & [Hrest Hidx] & Hw).
  simpl in Hrest, Hidx.
  assert (Hexec : regexp_exec token_re i (a :: t) = Some (FoundMatch [] w y)).
  { cbn [regexp_exec]. rewrite Hy. do 2 f_equal.
    rewrite Hidx, Hrest. replace (i + length w - i) with (length w) by lia.
    by rewrite take_app_length. }
  cbn [find_all]. rewrite Hexec. cbn [final matched].
  destruct (IH (rest y) (endIndex y)) as (ms & Hms & Hcat & Hsk).
  { apply (f_equal length) in Hrest. rewrite length_app in Hrest. simpl in *.
    destruct w; [done|]. simpl in *. lia. }
  exists (FoundMatch [] w y :: ms).
  destruct w as [|b w]; [done|]. rewrite Hms. split_and!.
  - done.
  - by rewrite fmap_cons, concat_cons, Hcat, Hrest.
  - by constructor.
Qed.

(** C1. Tokenizer round trip: the tokens of any input, concatenated in
    order, are the input itself, and the empty input has no token. *)
Theorem tokenize_roundtrip :
  (∀ s, concat (tokenizeKeepPunct s) = s) ∧ tokenizeKeepPunct [] = [].
Proof.
  split; [|done]. intros s. unfold tokenizeKeepPunct, match_global.
  destruct (find_all_token_re (S (length s)) s 0) as (ms & -> & Hcat & _); [lia|done].
Qed.

(** ** Word tokens *)

Lemma regexp_exec_bol_later r s :
  ∀ i, 0 < i → regexp_exec (RSeq RBol r) i s = None.
Proof.
  induction s as [|a t IH]; intros i Hi.
  - simpl. destruct i; [lia|done].
  - cbn [regexp_exec]. replace (rmatch (RSeq RBol r) (MState i (a :: t) []) Some)
      with (@None mstate) by (simpl; destruct i; [lia|done]).
    rewrite IH by lia. done.
Qed.

Lemma word_token_chars tok :
  regexp_test word_only_re tok = true → Forall word_char tok ∧ tok ≠ [].
Proof.
  unfold regexp_test. intros [m Hm]%bool_decide_eq_true.
  assert (Hmatch : is_Some (rmatch word_re (MState 0 tok []) (λ y, rmatch REol y Some))).
  { unfold word_only_re in Hm. destruct tok as [|a t]; cbn [regexp_exec] in Hm.
    - change (rmatch (RSeq RBol (RSeq word_re REol)) (MState 0 [] []) Some)
        with (rmatch word_re (MState 0 [] []) (λ y, rmatch REol y Some)) in Hm.
      by destruct (rmatch word_re _ _).
    - change (rmatch (RSeq RBol (RSeq word_re REol)) (MState 0 (a :: t) []) Some)
        with (rmatch word_re (MState 0 (a :: t) []) (λ y, rmatch REol y Some)) in Hm.
      destruct (rmatch word_re _ _); [done|].
      by rewrite regexp_exec_bol_later in Hm by lia. }
  destruct Hmatch as [z Hz].
  apply (rmatch_reads word_char) in Hz as (w & y & Hend & [Hrest _] & Hw & Hlen).
  - simpl in Hend, Hrest. destruct (rest y); [|done].
    rewrite app_nil_r in Hrest. subst w. split; [done|].
    intros ->. simpl in Hlen. lia.
  - unfold word_char. simpl. split_and!; auto.
    intros a Ha. right. by apply N.eqb_eq in Ha.
Qed.

Lemma word_char_ascii c : word_char c → is_ascii c = true.
Proof.
  unfold word_char, is_letter, is_upper_letter, is_lower_letter, is_ascii.
  intros [Hc| ->]; [|done].
  apply N.ltb_lt. repeat (apply orb_true_iff in Hc as [Hc|Hc] || apply andb_true_iff in Hc as [? Hc]);
    repeat match goal with H : (_ <=? _)%N = true |- _ => apply N.leb_le in H end; lia.
Qed.

Lemma ascii_lower_ascii c : is_ascii c = true → is_ascii (ascii_lower c) = true.
Proof.
  unfold is_ascii, ascii_lower, is_upper_letter. intros Hc%N.ltb_lt.
  destruct (_ && _) eqn:Hu; apply N.ltb_lt; [|done].
  apply andb_true_iff in Hu as [_ Hu%N.leb_le]. lia.
Qed.

Lemma ascii_lower_idemp c : ascii_lower (ascii_lower c) = ascii_lower c.
Proof.
  destruct (is_upper_letter c) eqn:Hu.
  - assert (Hc : ascii_lower c = (c + 32)%N) by (unfold ascii_lower; by rewrite Hu).
    rewrite Hc. unfold ascii_lower, is_upper_letter in *.
    apply andb_true_iff in Hu as [Hl%N.leb_le Hh%N.leb_le].
    assert (Hgt : (c + 32 <=? 90)%N = false) by (apply N.leb_gt; lia).
    by rewrite Hgt, andb_false_r.
  - unfold ascii_lower. by rewrite !Hu.
Qed.

Lemma forallb_word_chars (f : N → N) (l : jsstring) :
  (∀ c, word_char c → is_ascii (f c) = true) →
  Forall word_char l → forallb is_ascii (f <$> l) = true.
Proof.
  intros Hf. induction 1 as [|c l Hc _ IH]; [done|].
  rewrite fmap_cons. cbn [forallb]. by rewrite Hf, IH.
Qed.

Section Properties.
Context `{Host}.

Lemma word_token_lower tok :
  regexp_test word_only_re tok = true → toLowerCase tok = ascii_lower <$> tok.
Proof.
  intros [Hchars _]%word_token_chars. apply toLowerCase_ascii.
  rewrite <- (list_fmap_id tok). apply forallb_word_chars; [|done].
  apply word_char_ascii.
Qed.

Lemma lower_stable (l : jsstring) :
  Forall word_char l → toLowerCase (ascii_lower <$> l) = ascii_lower <$> l.
Proof.
  intros Hl. rewrite toLowerCase_ascii.
  - rewrite <- list_fmap_compose. apply list_fmap_ext. intros _ c _. apply ascii_lower_idemp.
  - apply forallb_word_chars; [|done].
    intros c Hc. by apply ascii_lower_ascii, word_char_ascii.
Qed.

(** The key of a word token is already in lower case: [lookupWord] looks
    up the key itself. *)
Lemma lookupKey_lower tok :
  regexp_test word_only_re tok = true → toLowerCase (lookupKey tok) = lookupKey tok.
Proof.
  intros Htok. unfold lookupKey. rewrite (word_token_lower _ Htok).
  apply word_token_chars in Htok as [Hchars _].
  destruct (_ && _).
  - unfold slice_to_minus. rewrite <- fmap_take. apply lower_stable. by apply Forall_take.
  - by apply lower_stable.
Qed.

Lemma get_property_absent (o : gmap jsstring jsval) k :
  o !! k = None →
  get_property o k = VUndefined ∨ ∃ b, get_property o k = VBuiltin b.
Proof.
  intros Hk. unfold get_property. rewrite Hk.
  destruct (str_eqb _ _); [by eauto|]. destruct (bool_decide _); by eauto.
Qed.

Lemma lookupWord_run σ w :
  lookupWord w σ
  = (Normal (translation_of (activeDict σ ≫= λ d, words d !! toLowerCase w)), σ).
Proof.
  unfold lookupWord. js_run. f_equal. destruct (activeDict σ) as [d|]; simpl; [|done].
  destruct (words d !! toLowerCase w) as [v|] eqn:Hv.
  - unfold get_property. rewrite Hv.
    destruct v as [| |[]|[]| s | | |[]]; simpl; try done.
    + by destruct (str_eqb s []).
    + by destruct (truthy (field _ _)).
  - by destruct (get_property_absent _ _ Hv) as [->|[[|name] ->]].
Qed.

Lemma lookupPhrase_run σ text :
  lookupPhrase text σ
  = (Normal (match activeDict σ with
             | Some d =>
                 let phrase := get_property (phrases d) (toLowerCase (normalizeSpaces text)) in
                 if truthy phrase then phrase else VNull
             | None => VNull
             end), σ).
Proof.
  unfold lookupPhrase. js_run. f_equal. destruct (activeDict σ) as [d|]; simpl; [|done].
  by destruct (truthy _).
Qed.

Lemma translateToken_word σ tok :
  regexp_test word_only_re tok = true →
  translateToken tok σ
  = (translated_token (markUnknown σ) tok
       (translation_of (activeDict σ ≫= λ d, words d !! lookupKey tok)), σ).
Proof.
  intros Htok. unfold translateToken. rewrite Htok. cbv zeta.
  change (if endsWith (toLowerCase tok) (js "'s") && (2 <? length (toLowerCase tok))
          then slice_to_minus 2 (toLowerCase tok) else toLowerCase tok)
    with (lookupKey tok).
  unfold mbind at 1. unfold JS_bind at 1.
  rewrite lookupWord_run, (lookupKey_lower _ Htok).
  unfold translated_token, isPossessive. js_run. destruct (truthy _); simpl; [|done].
  destruct (applyCasing _ _); simpl; [|done].
  destruct (_ && _); [|done]. by destruct (ToString _).
Qed.

Lemma translateToken_separator σ tok :
  regexp_test word_only_re tok = false →
  translateToken tok σ = (Normal (VStr tok), σ).
Proof. intros Htok. unfold translateToken. by rewrite Htok. Qed.

Lemma translateToken_store σ tok : after (translateToken tok) σ = σ.
Proof.
  unfold after. destruct (regexp_test word_only_re tok) eqn:Htok.
  - by rewrite translateToken_word.
  - by rewrite translateToken_separator.
Qed.

Lemma js_map_translateToken_store σ toks : after (js_map translateToken toks) σ = σ.
Proof.
  induction toks as [|tok toks IH]; [done|].
  unfold after in *. simpl. js_run.
  pose proof (translateToken_store σ tok) as Htok. unfold after in Htok.
  destruct (translateToken tok σ) as [[v|e] σ']; simpl in *; subst σ'; [|done].
  destruct (js_map translateToken toks σ) as [[vs|e] σ']; simpl in *; by subst σ'.
Qed.

Lemma wordByWord_store σ text : after (wordByWord text) σ = σ.
Proof.
  unfold wordByWord, after. js_run.
  pose proof (js_map_translateToken_store σ (tokenizeKeepPunct text)) as Hmap.
  unfold after in Hmap.
  destruct (js_map translateToken _ σ) as [[vs|e] σ']; simpl in *; by subst σ'.
Qed.

(** [translateWords] is the word-by-word result, overridden by the phrase
    of the whole input when phrases are not preferred. *)
Lemma translateWords_run σ prefer text :
  translateWords prefer text σ
  = (w ← outcome (wordByWord text) σ;
     let hit := outcome (lookupPhrase text) σ in
     if negb prefer then
       match hit with
       | Normal phraseHit => Normal (if truthy phraseHit then phraseHit else VStr w)
       | Throw e => Throw e
       end
     else Normal (VStr w), σ).
Proof.
  pose proof (wordByWord_store σ text) as Hst. revert Hst.
  unfold translateWords, wordByWord, after, outcome. js_run.
  destruct (js_map translateToken _ σ) as [[vs|e] σ']; simpl; intros ->; [|done].
  destruct (join_empty vs) as [w|e]; simpl; [|done].
  destruct prefer; simpl; [done|].
  rewrite lookupPhrase_run. simpl. by destruct (truthy _).
Qed.

Lemma translateText_run σ d text :
  activeDict σ = Some d →
  translateText text σ
  = (let hit := outcome (lookupPhrase text) σ in
     let words := w ← outcome (wordByWord text) σ; Normal (VStr w) in
     if preferPhrases σ then
       match hit with
       | Normal phraseHit => if truthy phraseHit then Normal phraseHit else words
       | Throw e => Throw e
       end
     else
       w ← outcome (wordByWord text) σ;
       match hit with
       | Normal phraseHit => Normal (if truthy phraseHit then phraseHit else VStr w)
       | Throw e => Throw e
       end, σ).
Proof.
  intros Hd. unfold translateText. js_run. rewrite Hd. simpl.
  destruct (preferPhrases σ).
  - rewrite lookupPhrase_run, Hd. simpl.
    destruct (truthy (get_property _ _)) eqn:Hhit; simpl.
    + by rewrite Hhit.
    + rewrite translateWords_run. reflexivity.
  - rewrite translateWords_run. reflexivity.
Qed.

(** Translating never writes the globals. *)
Lemma translateText_store σ text : after (translateText text) σ = σ.
Proof.
  unfold after. destruct (activeDict σ) as [d|] eqn:Hd.
  - by rewrite (translateText_run _ _ _ Hd).
  - unfold translateText. js_run. by rewrite Hd.
Qed.

(** C8. Identity fallback: without an active dictionary [translateText]
    returns its input, whatever the two check boxes say, and leaves the
    globals alone. *)
Theorem identity_fallback σ s :
  activeDict σ = None → translateText s σ = (Normal (VStr s), σ).
Proof. intros Hd. unfold translateText. js_run. by rewrite Hd. Qed.

Lemma applyCasing_string tok s : ∃ v, applyCasing tok (VStr s) = Normal v ∧ ∃ t, v = VStr t.
Proof.
  unfold applyCasing. destruct s as [|c s]; [by eauto|].
  change (negb (truthy (VStr (c :: s)))) with false. cbv iota.
  destruct (isAllCaps tok); [|destruct (isTitleCase tok); [|destruct (str_eqb _ _)]];
    (eexists; split; [reflexivity|by eauto]).
Qed.

Lemma translated_token_string mark tok found :
  found = VNull ∨ (∃ s, found = VStr s) →
  ∃ t, translated_token mark tok found = Normal (VStr t).
Proof.
  intros [->|[s ->]]; unfold translated_token; [simpl; by eauto|].
  destruct (truthy _); [|by eauto].
  destruct (applyCasing_string tok s) as (v & -> & t & ->). simpl.
  destruct (isPossessive tok); simpl; by eauto.
Qed.

Lemma translateToken_string σ d tok :
  activeDict σ = Some d → string_translations d →
  ∃ t, translateToken tok σ = (Normal (VStr t), σ).
Proof.
  intros Hd Hwf. destruct (regexp_test word_only_re tok) eqn:Htok.
  - rewrite (translateToken_word _ _ Htok), Hd. simpl.
    destruct (translated_token_string (markUnknown σ) tok
                (translation_of (words d !! lookupKey tok))) as [t ->]; [|by eauto].
    destruct (words d !! lookupKey tok) as [v|] eqn:Hv; [by eapply Hwf|by left].
  - rewrite (translateToken_separator _ _ Htok). by eauto.
Qed.

(** With string translations only, the word-by-word result exists. *)
Lemma wordByWord_total σ d text :
  activeDict σ = Some d → string_translations d →
  ∃ w, outcome (wordByWord text) σ = Normal w.
Proof.
  intros Hd Hwf. unfold wordByWord, outcome. js_run.
  assert (Hmap : ∀ toks, ∃ vs, js_map translateToken toks σ = (Normal vs, σ)
                               ∧ Forall (λ v, ∃ t, v = VStr t) vs).
  { induction toks as [|tok toks (vs & IH & Hvs)]; [by exists []|].
    destruct (translateToken_string σ d tok Hd Hwf) as [t Ht].
    exists (VStr t :: vs). simpl. js_run. rewrite Ht, IH. split; [done|]. constructor; eauto. }
  destruct (Hmap (tokenizeKeepPunct text)) as (vs & -> & Hvs). simpl.
  clear Hmap. induction Hvs as [|v vs [t ->] _ [w IH]]; simpl; [by eauto|].
  rewrite IH. simpl. by eauto.
Qed.

(** With string translations only, translating never raises. *)
Lemma translateText_no_throw σ d text :
  activeDict σ = Some d → string_translations d →
  ∃ v, outcome (translateText text) σ = Normal v.
Proof.
  intros Hd Hwf. destruct (wordByWord_total σ d text Hd Hwf) as [w Hw].
  unfold outcome at 1. rewrite (translateText_run _ _ _ Hd). cbn [fst]. cbv zeta.
  rewrite Hw. unfold outcome. rewrite lookupPhrase_run, Hd. simpl.
  destruct (preferPhrases σ), (truthy _); by eauto.
Qed.

(** X20. Phrases not preferred, where the word-by-word pass completes:
    [translateText] looks the whole input up as a phrase after that pass; a
    hit is returned in place of the word-by-word result, and on a miss the
    word-by-word result is returned.  The pass completes whenever the
    stored translations are strings; where it raises, see
    [phrase_hit_lost]. *)
Theorem phrase_overrides_words σ d text :
  activeDict σ = Some d → preferPhrases σ = false →
  after (translateText text) σ = σ
  ∧ (string_translations d → ∃ w, outcome (wordByWord text) σ = Normal w)
  ∧ ∃ hit, outcome (lookupPhrase text) σ = Normal hit
      ∧ ∀ w, outcome (wordByWord text) σ = Normal w →
          (hit ≠ VNull → outcome (translateText text) σ = Normal hit)
          ∧ (hit = VNull → outcome (translateText text) σ = Normal (VStr w)).
Proof.
  intros Hd Hprefer.
  pose proof (translateText_run σ d text Hd) as Hrun.
  rewrite Hprefer in Hrun. cbv zeta iota in Hrun.
  pose proof (lookupPhrase_run σ text) as Hphrase. rewrite Hd in Hphrase.
  cbv zeta in Hphrase. split_and!.
  - unfold after. by rewrite Hrun.
  - by apply wordByWord_total.
  - eexists. split; [unfold outcome; by rewrite Hphrase|].
    intros w Hw.
    set (gp := get_property (phrases d) (toLowerCase (normalizeSpaces text))) in *.
    assert (Hout : outcome (translateText text) σ
                   = Normal (if truthy gp then gp else VStr w)).
    { unfold outcome at 1. rewrite Hrun. cbn [fst]. rewrite Hw.
      unfold outcome. rewrite Hphrase. simpl.
      destruct (truthy gp) eqn:Hhit; simpl; [by rewrite Hhit|done]. }
    rewrite Hout. destruct (truthy gp) eqn:Hhit; split; try done.
    intros Hnull. by rewrite Hnull in Hhit.
Qed.

Lemma isAllCaps_true tok : isAllCaps tok = true ↔ 1 < length tok ∧ entirely_upper tok.
Proof.
  unfold isAllCaps, entirely_upper, str_eqb.
  rewrite andb_true_iff, Nat.ltb_lt, bool_decide_eq_true. done.
Qed.

Lemma isTitleCase_true tok : isTitleCase tok = true ↔ title_case tok.
Proof.
  unfold isTitleCase, title_case, entirely_upper, entirely_lower, str_eqb, slice_from_1.
  rewrite !andb_true_iff, Nat.ltb_lt, !bool_decide_eq_true. tauto.
Qed.

(** C5. Casing transfer onto a non-empty translation: all upper case for
    a token that is entirely upper case and longer than one code unit;
    else first code unit upper case and the rest lower case for a
    title-case token; else all lower case for a token that is entirely
    lower case; else the translation as stored. *)
Theorem applyCasing_cases tok t :
  t ≠ [] →
  let all_caps := 1 < length tok ∧ entirely_upper tok in
  (all_caps → applyCasing tok (VStr t) = Normal (VStr (toUpperCase t)))
  ∧ (¬ all_caps → title_case tok →
       applyCasing tok (VStr t)
       = Normal (VStr (toUpperCase (take 1 t) ++ toLowerCase (drop 1 t))))
  ∧ (¬ all_caps → ¬ title_case tok → entirely_lower tok →
       applyCasing tok (VStr t) = Normal (VStr (toLowerCase t)))
  ∧ (¬ all_caps → ¬ title_case tok → ¬ entirely_lower tok →
       applyCasing tok (VStr t) = Normal (VStr t)).
Proof.
  intros Ht all_caps. destruct t as [|c t]; [done|]. clear Ht.
  unfold applyCasing. change (negb (truthy (VStr (c :: t)))) with false. cbv iota.
  pose proof (isAllCaps_true tok) as Hcaps. pose proof (isTitleCase_true tok) as Htitle.
  destruct (isAllCaps tok); [|destruct (isTitleCase tok)].
  - split_and!; [done|intros []; by apply Hcaps..].
  - split_and!; [intros ?%Hcaps; done|done|intros _ []; by apply Htitle..].
  - unfold str_eqb. case_bool_decide as Hlower.
    + split_and!; [intros ?%Hcaps; done|intros _ ?%Htitle; done|done|done].
    + split_and!; [intros ?%Hcaps; done|intros _ ?%Htitle; done|done|done].
Qed.

(** C6, as amended. Phrases preferred: when the normalized, case-folded
    input is a key of [phrases] and the value stored there is not empty,
    [translateText] returns that value as stored, with no word-level
    processing. *)
Theorem preferred_phrase_wins σ d text v :
  activeDict σ = Some d → preferPhrases σ = true →
  phrases d !! toLowerCase (normalizeSpaces text) = Some v →
  truthy v = true →
  translateText text σ = (Normal v, σ).
Proof.
  intros Hd Hprefer Hv Htruthy.
  rewrite (translateText_run _ _ _ Hd), Hprefer. cbv zeta iota.
  unfold outcome at 1. rewrite lookupPhrase_run, Hd. cbn [fst]. cbv zeta.
  unfold get_property. rewrite Hv, Htruthy. by rewrite Htruthy.
Qed.

(** C7, as amended. [lookupWord] case-folds the word and reads [words]
    under that key: a stored string that is not empty is returned; for a
    stored object the field [l] is returned when it is truthy; in every
    other case the result is null.  The globals are left as they were. *)
Theorem lookupWord_cases σ w :
  let stored := activeDict σ ≫= λ d, words d !! toLowerCase w in
  after (lookupWord w) σ = σ
  ∧ (∀ s, stored = Some (VStr s) → s ≠ [] →
       outcome (lookupWord w) σ = Normal (VStr s))
  ∧ (∀ fields, stored = Some (VObj fields) → truthy (field (js "l") fields) = true →
       outcome (lookupWord w) σ = Normal (field (js "l") fields))
  ∧ ((∀ s, stored = Some (VStr s) → s = []) →
     (∀ fields, stored = Some (VObj fields) → truthy (field (js "l") fields) = false) →
       outcome (lookupWord w) σ = Normal VNull).
Proof.
  intros stored. unfold after, outcome. rewrite lookupWord_run. fold stored. cbn [fst snd].
  split_and!; [done|..].
  - intros s -> Hs. simpl. unfold str_eqb. by rewrite bool_decide_eq_false_2.
  - intros fields -> Hl. simpl. by rewrite Hl.
  - intros Hstr Hobj. destruct stored as [[]|]; simpl; try done.
    + by rewrite (Hstr _ eq_refl).
    + by rewrite (Hobj _ eq_refl).
Qed.

Lemma field_absent k fields : has_field k fields = false → field k fields = VUndefined.
Proof.
  induction fields as [|[k' v] fields IH]; simpl; [done|].
  intros [-> ?]%orb_false_iff. auto.
Qed.

Lemma translation_of_empty v : empty_translation v → translation_of (Some v) = VNull.
Proof.
  intros [->|(fields & -> & [Hl%field_absent|Hl])]; simpl; by rewrite ?Hl.
Qed.

Lemma translation_of_not_empty stored : translation_of stored ≠ VStr [].
Proof.
  destruct stored as [[]|]; simpl; try done.
  - unfold str_eqb. case_bool_decide; [done|congruence].
  - destruct (truthy (field _ _)) eqn:Hl; [|done]. intros Heq. by rewrite Heq in Hl.
Qed.

Lemma lookupWord_key σ tok :
  regexp_test word_only_re tok = true →
  outcome (lookupWord (lookupKey tok)) σ
  = Normal (translation_of (activeDict σ ≫= λ d, words d !! lookupKey tok)).
Proof.
  intros Htok. unfold outcome. by rewrite lookupWord_run, (lookupKey_lower _ Htok).
Qed.

(** C4. The possessive rule.  For a word token whose case-folded form ends
    in ['s] and is longer than two code units, [translateToken] looks the
    form without the suffix up, transfers the casing of the whole token to
    the translation found, and appends [-de].  A form of two code units or
    fewer is looked up as it is.  With [alex] translated as [aleks], the
    token [Alex's] becomes [Aleks-de]. *)
Theorem possessive_rule σ d :
  activeDict σ = Some d →
  (∀ tok, regexp_test word_only_re tok = true →
     let base := toLowerCase tok in
     (endsWith base (js "'s") = true → 2 < length base →
        lookupKey tok = slice_to_minus 2 base
        ∧ ∀ found, outcome (lookupWord (slice_to_minus 2 base)) σ = Normal (VStr found) →
            ∃ cased, applyCasing tok (VStr found) = Normal (VStr cased)
                     ∧ translateToken tok σ = (Normal (VStr (cased ++ js "-de")), σ))
     ∧ (length base ≤ 2 →
        lookupKey tok = base
        ∧ ∀ found, outcome (lookupWord base) σ = Normal (VStr found) →
            translateToken tok σ = (applyCasing tok (VStr found), σ)))
  ∧ (words d !! js "alex" = Some (VStr (js "aleks")) →
     translateToken (js "Alex's") σ = (Normal (VStr (js "Aleks-de")), σ)).
Proof.
  intros Hd.
  assert (Hgen : ∀ tok, regexp_test word_only_re tok = true →
     ∀ found, outcome (lookupWord (lookupKey tok)) σ = Normal (VStr found) →
       translateToken tok σ
       = (translated ← applyCasing tok (VStr found);
          if isPossessive tok then t ← ToString translated; Normal (VStr (t ++ js "-de"))
          else Normal translated, σ)).
  { intros tok Htok found Hfound. rewrite (lookupWord_key _ _ Htok) in Hfound.
    injection Hfound as Hfound. rewrite (translateToken_word _ _ Htok), Hfound.
    unfold translated_token.
    replace (truthy (VStr found)) with true; [done|].
    destruct found; [|done]. by apply translation_of_not_empty in Hfound. }
  split.
  - intros tok Htok base. split.
    + intros Hends Hlen. apply Nat.ltb_lt in Hlen.
      assert (Hposs : isPossessive tok = true) by (unfold isPossessive; fold base; by rewrite Hends, Hlen).
      assert (Hkey : lookupKey tok = slice_to_minus 2 base) by (unfold lookupKey; fold base; by rewrite Hends, Hlen).
      split; [done|]. intros found Hfound. rewrite <- Hkey in Hfound.
      rewrite (Hgen _ Htok _ Hfound), Hposs.
      destruct (applyCasing_string tok found) as (v & -> & cased & ->). by exists cased.
    + intros Hlen.
      assert (Hposs : isPossessive tok = false).
      { unfold isPossessive. fold base. apply andb_false_iff. right. apply Nat.ltb_ge. lia. }
      assert (Hkey : lookupKey tok = base).
      { unfold lookupKey. fold base. unfold isPossessive in Hposs. fold base in Hposs. by rewrite Hposs. }
      split; [done|]. intros found Hfound. rewrite <- Hkey in Hfound.
      rewrite (Hgen _ Htok _ Hfound), Hposs.
      by destruct (applyCasing_string tok found) as (v & -> & cased & ->).
  - intros Halex.
    assert (Htok : regexp_test word_only_re (js "Alex's") = true) by by vm_compute.
    assert (Hkey : lookupKey (js "Alex's") = js "alex").
    { unfold lookupKey. host_ascii. by vm_compute. }
    rewrite (Hgen _ Htok (js "aleks")).
    + unfold applyCasing, isAllCaps, isTitleCase, isPossessive.
      do 3 (host_ascii; simpl). by vm_compute.
    + rewrite (lookupWord_key _ _ Htok), Hkey, Hd. simpl. by rewrite Halex.
Qed.

(** C10. Empty translations are misses.  Neither lookup ever returns the
    empty string; a word token whose key holds an empty translation is
    echoed, or bracketed when unknown words are marked; and an empty
    phrase leaves the word-by-word result in place. *)
Theorem empty_entries_are_misses σ d :
  activeDict σ = Some d →
  (∀ w, outcome (lookupWord w) σ ≠ Normal (VStr []))
  ∧ (∀ text, outcome (lookupPhrase text) σ ≠ Normal (VStr []))
  ∧ (∀ tok v, regexp_test word_only_re tok = true →
       words d !! lookupKey tok = Some v → empty_translation v →
       translateToken tok σ
       = (Normal (VStr (if markUnknown σ then js "[" ++ tok ++ js "]" else tok)), σ))
  ∧ (∀ text, phrases d !! toLowerCase (normalizeSpaces text) = Some (VStr []) →
       outcome (translateText text) σ
       = (w ← outcome (wordByWord text) σ; Normal (VStr w))).
Proof.
  intros Hd. split_and!.
  - intros w. unfold outcome. rewrite lookupWord_run. simpl.
    intros [= Heq]. by apply translation_of_not_empty in Heq.
  - intros text. unfold outcome. rewrite lookupPhrase_run, Hd. simpl.
    destruct (truthy _) eqn:Hhit; [|done]. intros [= Heq]. by rewrite Heq in Hhit.
  - intros tok v Htok Hv Hempty. rewrite (translateToken_word _ _ Htok), Hd. simpl.
    rewrite Hv, (translation_of_empty _ Hempty). done.
  - intros text Hphrase. unfold outcome at 1.
    rewrite (translateText_run _ _ _ Hd). cbn [fst]. cbv zeta.
    unfold outcome at 1 3. rewrite lookupPhrase_run, Hd. cbn [fst]. cbv zeta.
    unfold get_property. rewrite Hphrase. simpl.
    destruct (preferPhrases σ); [done|]. by destruct (outcome (wordByWord text) σ).
Qed.

Lemma wordByWord_single tok σ c :
  tokenizeKeepPunct tok = [tok] → translateToken tok σ = (c, σ) →
  outcome (wordByWord tok) σ
  = (v ← c;
     a ← match v with VUndefined | VNull => Normal [] | _ => ToString v end;
     Normal (a ++ [])).
Proof.
  intros Htoks Htok. unfold outcome, wordByWord. rewrite Htoks. cbn [js_map].
  unfold mbind, JS_bind, mret, JS_ret, lift. cbv beta. rewrite Htok.
  destruct c as [v|]; [|done]. simpl. by destruct (match v with VUndefined | VNull => _ | _ => _ end).
Qed.

(** C3, where the code departs from it.  With the entry [{"l": 5}] for
    [hi], translating [hi] raises [TypeError]: [applyCasing] calls
    [toLowerCase] on the number.  And with any dictionary that has no
    phrase [constructor], translating [constructor] returns the function
    [Object] inherited by the [phrases] object, not a string. *)
Theorem translateText_not_total :
  outcome (translateText (js "hi")) (Store (Some number_dict) false false None)
  = Throw TypeError
  ∧ outcome (translateText (js "constructor")) (Store (Some empty_dict) false false None)
    = Normal (VBuiltin (BuiltinFunction (js "constructor"))).
Proof.
  split.
  - unfold outcome at 1. erewrite translateText_run by reflexivity. cbn [fst preferPhrases].
    cbv zeta iota.
    assert (Htok : regexp_test word_only_re (js "hi") = true) by by vm_compute.
    assert (Hkey : lookupKey (js "hi") = js "hi") by (unfold lookupKey; host_ascii; by vm_compute).
    erewrite wordByWord_single; [|by vm_compute|by apply translateToken_word].
    rewrite Hkey. simpl.
    unfold translated_token, applyCasing, isAllCaps, isTitleCase, isPossessive.
    do 3 (host_ascii; simpl). by vm_compute.
  - unfold outcome at 1. erewrite translateText_run by reflexivity. cbn [fst preferPhrases].
    cbv zeta iota.
    assert (Htok : regexp_test word_only_re (js "constructor") = true) by by vm_compute.
    assert (Hkey : lookupKey (js "constructor") = js "constructor")
      by (unfold lookupKey; host_ascii; by vm_compute).
    erewrite wordByWord_single; [|by vm_compute|by apply translateToken_word].
    rewrite Hkey. simpl.
    unfold outcome. rewrite lookupPhrase_run. simpl.
    replace (normalizeSpaces (js "constructor")) with (js "constructor") by by vm_compute.
    host_ascii. by vm_compute.
Qed.

(** C2, where the code departs from it.  Phrases are not preferred, [hi]
    is a phrase with the translation [yo], and the entry of the word [hi]
    is [{"l": 5}]: the phrase lookup hits, but [translateText] never
    reaches it, since the word-by-word pass before it raises [TypeError]
    ([applyCasing] calls [toLowerCase] on the number).  The phrase does
    not override anything; the defect is the one of C3. *)
Theorem phrase_hit_lost :
  preferPhrases (Store (Some number_phrase_dict) false false None) = false
  ∧ outcome (lookupPhrase (js "hi")) (Store (Some number_phrase_dict) false false None)
    = Normal (VStr (js "yo"))
  ∧ outcome (translateText (js "hi")) (Store (Some number_phrase_dict) false false None)
    = Throw TypeError.
Proof.
  split_and!; [done| |].
  - unfold outcome. rewrite lookupPhrase_run. simpl.
    replace (normalizeSpaces (js "hi")) with (js "hi") by by vm_compute.
    host_ascii. by vm_compute.
  - unfold outcome at 1. erewrite translateText_run by reflexivity. cbn [fst preferPhrases].
    cbv zeta iota.
    assert (Htok : regexp_test word_only_re (js "hi") = true) by by vm_compute.
    assert (Hkey : lookupKey (js "hi") = js "hi") by (unfold lookupKey; host_ascii; by vm_compute).
    erewrite wordByWord_single; [|by vm_compute|by apply translateToken_word].
    rewrite Hkey. simpl.
    unfold translated_token, applyCasing, isAllCaps, isTitleCase, isPossessive.
    do 3 (host_ascii; simpl). by vm_compute.
Qed.

End Properties.

(** ** Captures *)

Lemma repeat_class_captures p greedy caps c :
  ∀ s min i z,
    repeat_class p greedy min caps c i s = Some z →
    ∃ y, c y = Some z ∧ captures y = caps.
Proof.
  induction s as [|a t IH]; intros min i z Hz.
  - destruct min; simpl in Hz; [|done].
    exists (MState i [] caps). split; [|done]. by destruct greedy, (c _).
  - assert (Hagain : ∀ z', (if p a then repeat_class p greedy (pred min) caps c (S i) t else None) = Some z' →
        ∃ y, c y = Some z' ∧ captures y = caps).
    { intros z' Hz'. destruct (p a); [by eapply IH|done]. }
    destruct min as [|min]; simpl in Hz; [|by apply Hagain].
    destruct greedy.
    + destruct (if p a then _ else _) as [z'|] eqn:Hag.
      * simplify_eq. by apply Hagain.
      * by exists (MState i (a :: t) caps).
    + destruct (c (MState i (a :: t) caps)) as [z'|] eqn:Hc.
      * simplify_eq. by exists (MState i (a :: t) caps).
      * by apply Hagain.
Qed.

(** A successful match hands its continuation a state in which every
    group of the pattern is captured, and nothing captured before is
    lost. *)
Lemma rmatch_captures r :
  ∀ x c z,
    rmatch r x c = Some z →
    ∃ y, c y = Some z
         ∧ (∀ n, n ∈ groups r → captured n y)
         ∧ (∀ n, captured n x → captured n y).
Proof.
  induction r as [p|p min greedy|r IH|r1 IH1 r2 IH2|r1 IH1 r2 IH2|n r IH| |];
    simpl; intros x c z Hz.
  - destruct (rest x) as [|a t]; [done|]. destruct (p a); [|done].
    eexists. split; [done|]. split; [by intros n ?%elem_of_nil|done].
  - destruct (repeat_class_captures _ _ _ _ _ _ _ _ Hz) as (y & Hc & Hcaps).
    exists y. split; [done|]. split; [by intros n ?%elem_of_nil|].
    unfold captured. by rewrite Hcaps.
  - destruct (rmatch r x _) as [z'|] eqn:Hr.
    + simplify_eq. destruct (IH _ _ _ Hr) as (y & Hc & _ & Hmono).
      exists y. split; [by destruct (_ =? _)|]. split; [by intros n ?%elem_of_nil|done].
    + exists x. split; [done|]. split; [by intros n ?%elem_of_nil|done].
  - destruct (IH1 _ _ _ Hz) as (y1 & Hc1 & Hg1 & Hm1).
    destruct (IH2 _ _ _ Hc1) as (y2 & Hc2 & Hg2 & Hm2).
    exists y2. split; [done|]. split; [|by auto].
    intros n [?|?]%elem_of_app; auto.
  - destruct (rmatch r1 x c) as [z'|] eqn:Hr1.
    + simplify_eq. destruct (IH1 _ _ _ Hr1) as (y & ? & _ & ?).
      exists y. split; [done|]. split; [by intros n ?%elem_of_nil|done].
    + destruct (IH2 _ _ _ Hz) as (y & ? & _ & ?).
      exists y. split; [done|]. split; [by intros n ?%elem_of_nil|done].
  - destruct (IH _ _ _ Hz) as (y & Hc & Hg & Hm).
    eexists. split; [exact Hc|].
    assert (Hkeep : ∀ k, captured k y →
      captured k (MState (endIndex y) (rest y)
                    ((n, take (endIndex y - endIndex x) (rest x)) :: captures y))).
    { intros k Hk. unfold captured in *. simpl. by destruct (n =? k). }
    split.
    + intros k [->|Hk]%elem_of_cons; [|by auto].
      unfold captured. simpl. by rewrite Nat.eqb_refl.
    + by auto.
  - destruct (endIndex x =? 0); [|done].
    exists x. split; [done|]. split; [by intros n ?%elem_of_nil|done].
  - destruct (rest x) eqn:Hrest; [|done].
    exists x. split; [done|]. split; [by intros n ?%elem_of_nil|done].
Qed.

Lemma regexp_exec_groups r :
  ∀ s i m n, regexp_exec r i s = Some m → n ∈ groups r → is_Some (capture n m).
Proof.
  induction s as [|a t IH]; intros i m n Hm Hn; cbn [regexp_exec] in Hm.
  - destruct (rmatch r _ _) as [y|] eqn:Hy; [|done]. simplify_eq.
    destruct (rmatch_captures _ _ _ _ Hy) as (y' & [= ->] & Hg & _). by apply Hg.
  - destruct (rmatch r _ _) as [y|] eqn:Hy.
    + simplify_eq. destruct (rmatch_captures _ _ _ _ Hy) as (y' & [= ->] & Hg & _). by apply Hg.
    + destruct (regexp_exec r (S i) t) as [m'|] eqn:Hm'; [|done].
      injection Hm as <-. by apply (IH _ _ _ Hm').
Qed.

(** ** Adding lines *)

Lemma set_property_lookup {V : Type} (k : jsstring) (v : V) (o : gmap jsstring V) k' :
  set_property k v o !! k'
  = if bool_decide (k' = k)
    then (if bool_decide (k = js "__proto__" ∧ o !! k = None) then None else Some v)
    else o !! k'.
Proof.
  unfold set_property, str_eqb.
  destruct (decide (k = js "__proto__" ∧ o !! k = None)) as [[Hk Ho]|Hno].
  - rewrite (bool_decide_eq_true_2 (k = js "__proto__") Hk),
      (bool_decide_eq_true_2 (o !! k = None) Ho),
      (bool_decide_eq_true_2 (k = js "__proto__" ∧ o !! k = None) (conj Hk Ho)).
    simpl. case_bool_decide; by simplify_eq.
  - rewrite (bool_decide_eq_false_2 (k = js "__proto__" ∧ o !! k = None) Hno).
    assert (Hcond : bool_decide (k = js "__proto__") && bool_decide (o !! k = None) = false).
    { apply andb_false_iff. destruct (decide (k = js "__proto__")) as [Hk|Hk].
      - right. apply bool_decide_eq_false_2. tauto.
      - left. by apply bool_decide_eq_false_2. }
    rewrite Hcond. clear Hcond. case_bool_decide as Hk'.
    + rewrite Hk'. by rewrite lookup_insert_eq.
    + by rewrite lookup_insert_ne.
Qed.

(** After the loop over [Object.entries], a key of the additions holds
    the added string, unless it is [__proto__] and the target had no such
    property; every other key holds what it held. *)
Lemma assign_entries_lookup (entries : gmap jsstring jsstring) (o : gmap jsstring jsval) k :
  assign_entries entries o !! k
  = match entries !! k with
    | Some v =>
        if bool_decide (k = js "__proto__" ∧ o !! k = None) then None else Some (VStr v)
    | None => o !! k
    end.
Proof.
  unfold assign_entries. revert k.
  apply (map_fold_weak_ind (λ r m, ∀ k, r !! k = match m !! k with
    | Some v => if bool_decide (k = js "__proto__" ∧ o !! k = None) then None else Some (VStr v)
    | None => o !! k end)).
  - intros k. by rewrite lookup_empty.
  - intros i x m r Hi IH k. rewrite set_property_lookup.
    case_bool_decide as Hk.
    + subst k. rewrite lookup_insert_eq. pose proof (IH i) as IHi. rewrite Hi in IHi.
      rewrite IHi. done.
    + rewrite lookup_insert_ne by done. apply IH.
Qed.

Section AddLines.
Context `{Host}.

Lemma groups_line_re : groups line_re = [1; 2].
Proof. done. Qed.

Lemma parseQuickAddLine_run line a :
  parseQuickAddLine line a
  = Normal (match line_entry line with Some e => add_entry a e | None => a end).
Proof.
  unfold parseQuickAddLine, line_entry, group.
  destruct (regexp_exec line_re 0 line) as [m|] eqn:Hm; simpl; [|done].
  destruct (regexp_exec_groups _ _ _ _ 1 Hm) as [m1 ->]; [rewrite groups_line_re; set_solver|].
  destruct (regexp_exec_groups _ _ _ _ 2 Hm) as [m2 ->]; [rewrite groups_line_re; set_solver|].
  simpl. destruct (_ || _); [done|]. unfold add_entry. simpl.
  by destruct (includes_space _).
Qed.

Lemma parseQuickAddLoop_run lines :
  ∀ a, parseQuickAddLoop lines a = Normal (foldl add_entry a (omap line_entry lines)).
Proof.
  induction lines as [|line lines IH]; intros a; simpl; [done|].
  rewrite parseQuickAddLine_run. simpl. rewrite IH.
  by destruct (line_entry line).
Qed.

(** [parseQuickAddLines] never raises. *)
Lemma parseQuickAddLines_run raw :
  parseQuickAddLines raw
  = Normal (foldl add_entry (Adds ∅ ∅) (omap line_entry (lines_of raw))).
Proof. unfold parseQuickAddLines. by rewrite parseQuickAddLoop_run. Qed.

Lemma mergeAddsIntoDict_run a σ :
  mergeAddsIntoDict a σ
  = let d0 := ensureDictShape (activeDict σ) in
    let d := Dict (assign_entries (add_words a) (words d0))
                  (assign_entries (add_phrases a) (phrases d0)) in
    (Normal tt, Store (Some d) (preferPhrases σ) (markUnknown σ) (Some d)).
Proof. done. Qed.

(** C9, where the code departs from it.  The line [__proto__ = x] has the
    form [left = right] with both sides not empty, yet nothing is stored
    for it: the assignment to the key [__proto__] of the fresh object of
    additions is ignored, the additions stay empty, and the click handler
    counts no entry and leaves the dictionary as it was.  The line
    [hello = ya] is stored. *)
Theorem proto_line_not_stored :
  line_entry (js "__proto__ = x") = Some (js "__proto__", js "x")
  ∧ parseQuickAddLines (js "__proto__ = x") = Normal (Adds ∅ ∅)
  ∧ (∀ σ, addLinesClick (js "__proto__ = x") σ = (Normal 0, σ))
  ∧ parseQuickAddLines (js "hello = ya") = Normal (Adds {[ js "hello" := js "ya" ]} ∅).
Proof.
  assert (Hentry : line_entry (js "__proto__ = x") = Some (js "__proto__", js "x")).
  { unfold line_entry.
    set (m := regexp_exec line_re 0 (js "__proto__ = x")). vm_compute in m. subst m.
    simpl. set (l := normalizeSpaces _). vm_compute in l. subst l.
    set (r := normalizeSpaces _). vm_compute in r. subst r.
    host_ascii. by vm_compute. }
  assert (Hhello : line_entry (js "hello = ya") = Some (js "hello", js "ya")).
  { unfold line_entry.
    set (m := regexp_exec line_re 0 (js "hello = ya")). vm_compute in m. subst m.
    simpl. set (l := normalizeSpaces _). vm_compute in l. subst l.
    set (r := normalizeSpaces _). vm_compute in r. subst r.
    host_ascii. by vm_compute. }
  assert (Hparse : parseQuickAddLines (js "__proto__ = x") = Normal (Adds ∅ ∅)).
  { rewrite parseQuickAddLines_run.
    replace (lines_of (js "__proto__ = x")) with [js "__proto__ = x"] by by vm_compute.
    simpl. rewrite Hentry. by vm_compute. }
  split_and!; [done|done| |].
  - intros σ. unfold addLinesClick. js_run. by rewrite Hparse.
  - rewrite parseQuickAddLines_run.
    replace (lines_of (js "hello = ya")) with [js "hello = ya"] by by vm_compute.
    simpl. rewrite Hhello. by vm_compute.
Qed.

Lemma add_entry_words a e k :
  k ≠ js "__proto__" →
  add_words (add_entry a e) !! k
  = if negb (includes_space e.1) && str_eqb e.1 k then Some e.2 else add_words a !! k.
Proof.
  intros Hk. unfold add_entry, str_eqb. destruct (includes_space e.1); simpl; [done|].
  rewrite set_property_lookup.
  destruct (decide (k = e.1)) as [Hkk|Hkk].
  - rewrite (bool_decide_eq_true_2 _ Hkk), (bool_decide_eq_true_2 (e.1 = k)) by done.
    rewrite bool_decide_eq_false_2; [done|]. intros [Hp _]. congruence.
  - rewrite (bool_decide_eq_false_2 _ Hkk), (bool_decide_eq_false_2 (e.1 = k)) by congruence.
    done.
Qed.

Lemma add_entry_phrases a e k :
  k ≠ js "__proto__" →
  add_phrases (add_entry a e) !! k
  = if includes_space e.1 && str_eqb e.1 k then Some e.2 else add_phrases a !! k.
Proof.
  intros Hk. unfold add_entry, str_eqb. destruct (includes_space e.1); simpl; [|done].
  rewrite set_property_lookup.
  destruct (decide (k = e.1)) as [Hkk|Hkk].
  - rewrite (bool_decide_eq_true_2 _ Hkk), (bool_decide_eq_true_2 (e.1 = k)) by done.
    rewrite bool_decide_eq_false_2; [done|]. intros [Hp _]. congruence.
  - rewrite (bool_decide_eq_false_2 _ Hkk), (bool_decide_eq_false_2 (e.1 = k)) by congruence.
    done.
Qed.

Lemma foldl_add_entry_words k es :
  k ≠ js "__proto__" →
  ∀ a, add_words (foldl add_entry a es) !! k
       = match named k es with
         | Some v => if includes_space k then add_words a !! k else Some v
         | None => add_words a !! k
         end.
Proof.
  intros Hk. induction es as [|[k' v] es IH]; intros a; simpl; [done|].
  rewrite IH, add_entry_words by done. simpl. unfold str_eqb.
  case_bool_decide as Hkk.
  - subst k'. destruct (includes_space k), (named k es); done.
  - rewrite andb_false_r. by destruct (named k es).
Qed.

Lemma foldl_add_entry_phrases k es :
  k ≠ js "__proto__" →
  ∀ a, add_phrases (foldl add_entry a es) !! k
       = match named k es with
         | Some v => if includes_space k then Some v else add_phrases a !! k
         | None => add_phrases a !! k
         end.
Proof.
  intros Hk. induction es as [|[k' v] es IH]; intros a; simpl; [done|].
  rewrite IH, add_entry_phrases by done. simpl. unfold str_eqb.
  case_bool_decide as Hkk.
  - subst k'. destruct (includes_space k), (named k es); done.
  - rewrite andb_false_r. by destruct (named k es).
Qed.

(** The additions never hold the key [__proto__]. *)
Lemma foldl_add_entry_proto es :
  ∀ a, add_words a !! js "__proto__" = None → add_phrases a !! js "__proto__" = None →
       add_words (foldl add_entry a es) !! js "__proto__" = None
       ∧ add_phrases (foldl add_entry a es) !! js "__proto__" = None.
Proof.
  induction es as [|[k' v] es IH]; intros a Hw Hp; simpl; [done|].
  apply IH; unfold add_entry; simpl; destruct (includes_space k'); simpl; try done.
  - rewrite set_property_lookup. case_bool_decide as Hk; [|done].
    subst k'. by rewrite bool_decide_eq_true_2.
  - rewrite set_property_lookup. case_bool_decide as Hk; [|done].
    subst k'. by rewrite bool_decide_eq_true_2.
Qed.

(** X19. What adding lines does to a dictionary whose [words] and
    [phrases] are plain objects (the dictionaries of [dict]; an array in
    their place takes the assignments of [mergeAddsIntoDict] differently),
    key by key.  The last line naming a key decides its value; a key with a
    space goes to [phrases], any other key to [words]; a key no line names
    keeps what it had in both maps, so nothing is removed.  The key
    [__proto__] keeps what it had whatever the lines say. *)
Theorem add_lines_frame σ raw k :
  let es := omap line_entry (lines_of raw) in
  let d0 := ensureDictShape (activeDict σ) in
  let d1 := ensureDictShape (activeDict (after (addLinesClick raw) σ)) in
  match named k es with
  | Some v =>
      if bool_decide (k = js "__proto__")
      then words d1 !! k = words d0 !! k ∧ phrases d1 !! k = phrases d0 !! k
      else if includes_space k
      then phrases d1 !! k = Some (VStr v) ∧ words d1 !! k = words d0 !! k
      else words d1 !! k = Some (VStr v) ∧ phrases d1 !! k = phrases d0 !! k
  | None => words d1 !! k = words d0 !! k ∧ phrases d1 !! k = phrases d0 !! k
  end.
Proof.
  intros es d0 d1.
  set (a := foldl add_entry (Adds ∅ ∅) es).
  assert (Hrun : d1 = d0 ∧ add_words a = ∅ ∧ add_phrases a = ∅
               ∨ d1 = Dict (assign_entries (add_words a) (words d0))
                           (assign_entries (add_phrases a) (phrases d0))).
  { unfold d1, after, addLinesClick. js_run. rewrite parseQuickAddLines_run. fold es a. simpl.
    destruct (size (add_words a) + size (add_phrases a) =? 0) eqn:Hcount.
    - left. apply Nat.eqb_eq in Hcount. split; [done|].
      split; apply map_size_empty_inv; lia.
    - right. done. }
  destruct (decide (k = js "__proto__")) as [->|Hk].
  - destruct (foldl_add_entry_proto es (Adds ∅ ∅)) as [Hw Hp]; [done..|]. fold a in Hw, Hp.
    assert (words d1 !! js "__proto__" = words d0 !! js "__proto__"
            ∧ phrases d1 !! js "__proto__" = phrases d0 !! js "__proto__") as Hsame.
    { destruct Hrun as [(-> & _)| ->]; [done|]. simpl.
      by rewrite !assign_entries_lookup, Hw, Hp. }
    rewrite bool_decide_eq_true_2 by done. by destruct (named _ es).
  - pose proof (foldl_add_entry_words k es Hk (Adds ∅ ∅)) as Hw.
    pose proof (foldl_add_entry_phrases k es Hk (Adds ∅ ∅)) as Hp.
    fold a in Hw, Hp. simpl in Hw, Hp. rewrite lookup_empty in Hw, Hp.
    rewrite (bool_decide_eq_false_2 _ Hk).
    destruct Hrun as [(-> & Hwe & Hpe)| ->].
    + rewrite Hwe, Hpe, !lookup_empty in *.
      destruct (named k es); [|done]. by destruct (includes_space k).
    + simpl. rewrite !assign_entries_lookup, Hw, Hp.
      destruct (named k es) as [v|]; [|done].
      destruct (includes_space k); (rewrite bool_decide_eq_false_2; [done|tauto]).
Qed.

End AddLines.

(** ** Examples *)

(** A phrase hit replaces the word-by-word result [Good Morning]. *)
Lemma phrase_overrides_words_witness :
  preferPhrases (sample_store false false) = false
  ∧ outcome (translateText (H:=ascii_host) (js "Good Morning")) (sample_store false false)
    = Normal (VStr (js "yara muna")).
Proof.
  split; [reflexivity|].
  destruct (phrase_overrides_words (H:=ascii_host) (sample_store false false) sample_dict
              (js "Good Morning") eq_refl eq_refl) as (_ & _ & hit & Hhit & Hwords).
  vm_compute in Hhit. injection Hhit as <-.
  apply (Hwords (js "Good Morning")); [vm_compute; reflexivity|discriminate].
Defined.

(** The possessive rule on the sample dictionary: a plain entry, a
    structured entry, and a short word that keeps its form. *)
Lemma possessive_rule_witness :
  activeDict (sample_store false false) = Some sample_dict
  ∧ translateToken (H:=ascii_host) (js "Alex's") (sample_store false false)
    = (Normal (VStr (js "Aleks-de")), sample_store false false)
  ∧ translateToken (H:=ascii_host) (js "World's") (sample_store false false)
    = (Normal (VStr (js "Mona-de")), sample_store false false)
  ∧ translateToken (H:=ascii_host) (js "IS") (sample_store false false)
    = (Normal (VStr (js "SI")), sample_store false false).
Proof.
  split; [reflexivity|].
  destruct (possessive_rule (H:=ascii_host) (sample_store false false) sample_dict eq_refl)
    as [Hrule Halex].
  split_and!.
  - apply Halex. vm_compute; reflexivity.
  - destruct (Hrule (js "World's")) as [Hstrip _]; [vm_compute; reflexivity|].
    destruct Hstrip as [_ Hfound]; [vm_compute; reflexivity|vm_compute; lia|].
    destruct (Hfound (js "mona")) as (cased & Hcased & ->); [vm_compute; reflexivity|].
    vm_compute in Hcased. injection Hcased as <-. vm_compute; reflexivity.
  - destruct (Hrule (js "IS")) as [_ Hkeep]; [vm_compute; reflexivity|].
    destruct Hkeep as [_ Hfound]; [vm_compute; lia|].
    rewrite (Hfound (js "si")); vm_compute; reflexivity.
Defined.

(** The four casings of a token, transferred onto [yA]. *)
Lemma applyCasing_cases_witness :
  js "yA" ≠ []
  ∧ applyCasing (H:=ascii_host) (js "HELLO") (VStr (js "yA")) = Normal (VStr (js "YA"))
  ∧ applyCasing (H:=ascii_host) (js "Hello") (VStr (js "yA")) = Normal (VStr (js "Ya"))
  ∧ applyCasing (H:=ascii_host) (js "hello") (VStr (js "yA")) = Normal (VStr (js "ya"))
  ∧ applyCasing (H:=ascii_host) (js "hELLO") (VStr (js "yA")) = Normal (VStr (js "yA")).
Proof.
  split; [discriminate|].
  assert (Hne : js "yA" ≠ []) by discriminate.
  split_and!.
  - apply (applyCasing_cases (H:=ascii_host) (js "HELLO") (js "yA") Hne).
    split; [vm_compute; lia|reflexivity].
  - apply (applyCasing_cases (H:=ascii_host) (js "Hello") (js "yA") Hne).
    + intros [_ Hupper]. vm_compute in Hupper. discriminate.
    + split_and!; [vm_compute; lia|reflexivity..].
  - apply (applyCasing_cases (H:=ascii_host) (js "hello") (js "yA") Hne).
    + intros [_ Hupper]. vm_compute in Hupper. discriminate.
    + intros (_ & Hupper & _). vm_compute in Hupper. discriminate.
    + reflexivity.
  - apply (applyCasing_cases (H:=ascii_host) (js "hELLO") (js "yA") Hne).
    + intros [_ Hupper]. vm_compute in Hupper. discriminate.
    + intros (_ & Hupper & _). vm_compute in Hupper. discriminate.
    + intros Hlower. vm_compute in Hlower. discriminate.
Defined.

(** The preferred phrase is returned as stored. *)
Lemma preferred_phrase_wins_witness :
  truthy (VStr (js "yara muna")) = true
  ∧ translateText (H:=ascii_host) (js "Good Morning") (sample_store true false)
    = (Normal (VStr (js "yara muna")), sample_store true false).
Proof.
  split; [reflexivity|].
  apply (preferred_phrase_wins (H:=ascii_host) (sample_store true false) sample_dict);
    vm_compute; reflexivity.
Defined.

(** C6 as stated fails: the key [good morning] is in [phrases], with the
    empty string for translation, and the input is translated word by
    word instead. *)
Lemma preferred_phrase_counterexample :
  phrases hollow_dict !! toLowerCase (Host:=ascii_host) (normalizeSpaces (js "Good Morning"))
  = Some (VStr [])
  ∧ outcome (translateText (H:=ascii_host) (js "Good Morning")) (hollow_store true false)
    = Normal (VStr (js "Good Morning"))
  ∧ outcome (translateText (H:=ascii_host) (js "Good Morning")) (hollow_store true false)
    ≠ Normal (VStr []).
Proof. split_and!; [vm_compute; reflexivity..|vm_compute; discriminate]. Qed.

(** A structured entry gives its field [l]. *)
Lemma lookupWord_cases_witness :
  outcome (lookupWord (H:=ascii_host) (js "World")) (sample_store false false)
  = Normal (VStr (js "mona"))
  ∧ after (lookupWord (H:=ascii_host) (js "World")) (sample_store false false)
    = sample_store false false.
Proof.
  pose proof (lookupWord_cases (H:=ascii_host) (sample_store false false) (js "World"))
    as (Hstore & _ & Hobject & _).
  split; [|exact Hstore].
  apply (Hobject [(js "l", VStr (js "mona"))]); vm_compute; reflexivity.
Defined.

(** C7 as stated fails: the value stored for [hi] is a plain string, the
    empty one, and [lookupWord] returns null, not that string. *)
Lemma lookupWord_counterexample :
  words hollow_dict !! toLowerCase (Host:=ascii_host) (js "hi") = Some (VStr [])
  ∧ outcome (lookupWord (H:=ascii_host) (js "hi")) (hollow_store false false) = Normal VNull
  ∧ outcome (lookupWord (H:=ascii_host) (js "hi")) (hollow_store false false)
    ≠ Normal (VStr []).
Proof. split_and!; [vm_compute; reflexivity..|vm_compute; discriminate]. Qed.

(** No dictionary, both check boxes set: the input comes back. *)
Lemma identity_fallback_witness :
  activeDict (Store None true true None) = None
  ∧ translateText (H:=ascii_host) (js "Hello, world!") (Store None true true None)
    = (Normal (VStr (js "Hello, world!")), Store None true true None).
Proof.
  split; [reflexivity|]. apply (identity_fallback (H:=ascii_host)). reflexivity.
Defined.

(** Empty translations in the hollow dictionary: tokens are bracketed, and
    the empty phrase does not replace the word-by-word result. *)
Lemma empty_entries_are_misses_witness :
  activeDict (hollow_store false true) = Some hollow_dict
  ∧ translateToken (H:=ascii_host) (js "Hi") (hollow_store false true)
    = (Normal (VStr (js "[Hi]")), hollow_store false true)
  ∧ translateToken (H:=ascii_host) (js "yo") (hollow_store false true)
    = (Normal (VStr (js "[yo]")), hollow_store false true)
  ∧ outcome (translateText (H:=ascii_host) (js "Good Morning")) (hollow_store false true)
    = Normal (VStr (js "[Good] [Morning]")).
Proof.
  split; [reflexivity|].
  destruct (empty_entries_are_misses (H:=ascii_host) (hollow_store false true) hollow_dict eq_refl)
    as (_ & _ & Htoken & Hphrase).
  split_and!.
  - apply (Htoken (js "Hi") (VStr [])); [vm_compute; reflexivity..|by left].
  - apply (Htoken (js "yo") (VObj [])); [vm_compute; reflexivity..|].
    right. exists []. split; [reflexivity|]. left. reflexivity.
  - rewrite (Hphrase (js "Good Morning")); vm_compute; reflexivity.
Defined.

(** ** The tokenizer as a scanner *)

Lemma run_after_run p s : s = run p s ++ after_run p s.
Proof. induction s as [|a t IH]; simpl; [done|]. destruct (p a); simpl; [by f_equal|done]. Qed.

Lemma after_run_length p s : length (after_run p s) ≤ length s.
Proof. induction s as [|a t IH]; simpl; [done|]. destruct (p a); simpl; lia. Qed.

Lemma run_Forall p s : Forall (λ c, p c = true) (run p s).
Proof. induction s as [|a t IH]; simpl; [done|]. destruct (p a) eqn:Ha; by constructor. Qed.

Lemma after_run_head p s a t : after_run p s = a :: t → p a = false.
Proof.
  induction s as [|b s IH]; simpl; [done|].
  destruct (p b) eqn:Hb; [done|]. by intros [= <- _].
Qed.

Lemma run_all p s : Forall (λ c, p c = true) s → run p s = s ∧ after_run p s = [].
Proof.
  induction 1 as [|a t Ha _ [IH1 IH2]]; simpl; [done|]. rewrite Ha. by rewrite IH1.
Qed.

Lemma run_app_stop p l a t :
  Forall (λ c, p c = true) l → p a = false →
  run p (l ++ a :: t) = l ∧ after_run p (l ++ a :: t) = a :: t.
Proof.
  intros Hl Ha. induction Hl as [|b l Hb _ [IH1 IH2]]; simpl.
  - by rewrite Ha.
  - rewrite Hb. by rewrite IH1.
Qed.

(** A greedy quantifier gives its continuation the longest run first; when
    the continuation accepts it, that is the match. *)
Lemma repeat_class_greedy_first p caps c z :
  ∀ s i,
    c (MState (i + length (run p s)) (after_run p s) caps) = Some z →
    repeat_class p true 0 caps c i s = Some z.
Proof.
  induction s as [|a t IH]; intros i Hc; simpl in *.
  - rewrite Nat.add_0_r in Hc. by rewrite Hc.
  - destruct (p a); simpl in Hc.
    + rewrite (IH (S i)); [done|]. by replace (S i + length (run p t)) with (i + S (length (run p t))) by lia.
    + rewrite Nat.add_0_r in Hc. by rewrite Hc.
Qed.

Lemma repeat_class_plus_first p caps c z a t i :
  p a = true →
  c (MState (i + length (run p (a :: t))) (after_run p (a :: t)) caps) = Some z →
  repeat_class p true 1 caps c i (a :: t) = Some z.
Proof.
  intros Ha Hc. simpl in *. rewrite Ha in *. simpl in Hc.
  apply repeat_class_greedy_first.
  by replace (S i + length (run p t)) with (i + S (length (run p t))) by lia.
Qed.

Lemma word_tail_split r : r = (word_tail r).1 ++ (word_tail r).2.
Proof.
  destruct r as [|q [|b t]]; simpl; [done..|].
  destruct (_ && _); simpl; [|done]. do 2 f_equal. apply run_after_run.
Qed.

(** The optional tail ['[A-Za-z]+] of a word: when the continuation
    accepts the state after the tail, that is the match. *)
Lemma word_tail_match i r (c : cont) z :
  c (MState (i + length (word_tail r).1) (word_tail r).2 []) = Some z →
  rmatch (ROpt (RSeq (RClass (is_char 39)) (RRep is_letter 1 true))) (MState i r []) c
  = Some z.
Proof.
  intros Hc. cbn [rmatch rest endIndex captures].
  destruct r as [|q [|b t]]; simpl in Hc |- *.
  - rewrite Nat.add_0_r in Hc. by rewrite Hc.
  - rewrite Nat.add_0_r in Hc. destruct (is_char 39 q); simpl; by rewrite Hc.
  - destruct (is_char 39 q) eqn:Hq; simpl in Hc |- *.
    + destruct (is_letter b) eqn:Hb; simpl in Hc.
      * rewrite (repeat_class_greedy_first _ _ _ z); [done|]. cbn [endIndex].
        replace (S (S i) + length (run is_letter t)) with (i + S (S (length (run is_letter t)))) by lia.
        rewrite Hc.
        by replace (i + S (S (length (run is_letter t))) =? i) with false
          by (symmetry; apply Nat.eqb_neq; lia).
      * rewrite Nat.add_0_r in Hc. by rewrite Hc.
    + rewrite Nat.add_0_r in Hc. by rewrite Hc.
Qed.

(** The token pattern matches, at any index, the token the scanner takes. *)
Lemma token_re_next i a t :
  rmatch token_re (MState i (a :: t) []) Some
  = Some (MState (i + length (next_token (a :: t)).1) (next_token (a :: t)).2 [])
  ∧ a :: t = (next_token (a :: t)).1 ++ (next_token (a :: t)).2
  ∧ (next_token (a :: t)).1 ≠ [].
Proof.
  change (rmatch token_re (MState i (a :: t) []) Some)
    with (match repeat_class is_letter true 1 []
                  (λ y, rmatch (ROpt (RSeq (RClass (is_char 39)) (RRep is_letter 1 true))) y Some)
                  i (a :: t) with
          | Some z => Some z
          | None => repeat_class is_not_letter true 1 [] Some i (a :: t)
          end).
  unfold next_token. destruct (is_letter a) eqn:Ha; cbn [fst snd].
  - erewrite repeat_class_plus_first; [|done|by apply word_tail_match].
    rewrite length_app, Nat.add_assoc. split_and!; [done| |].
    + rewrite <- (assoc_L (++)), <- word_tail_split. apply run_after_run.
    + simpl. by rewrite Ha.
  - replace (repeat_class is_letter true 1 [] _ i (a :: t)) with (@None mstate)
      by (simpl; by rewrite Ha).
    assert (Hna : is_not_letter a = true) by (unfold is_not_letter; by rewrite Ha).
    erewrite repeat_class_plus_first; [|done|done].
    split_and!; [done|apply run_after_run|]. simpl. by rewrite Hna.
Qed.

Lemma find_all_scan fuel :
  ∀ s i, length s < fuel →
    ∃ ms, find_all fuel token_re i s = (ms, []) ∧ matched <$> ms = scan (length s) s.
Proof.
  induction fuel as [|fuel IH]; intros s i Hlen; [lia|].
  destruct s as [|a t].
  { exists []. cbn [find_all regexp_exec]. by rewrite token_re_at_end. }
  destruct (token_re_next i a t) as (Hy & Hs & Htok).
  set (tok := (next_token (a :: t)).1) in *. set (r := (next_token (a :: t)).2) in *.
  assert (Hexec : regexp_exec token_re i (a :: t)
                  = Some (FoundMatch [] tok (MState (i + length tok) r []))).
  { cbn [regexp_exec]. rewrite Hy. do 2 f_equal. cbn [endIndex].
    replace (i + length tok - i) with (length tok) by lia.
    rewrite Hs. by rewrite take_app_length. }
  assert (Hr : length r < length (a :: t)).
  { pose proof (f_equal length Hs) as Hl. rewrite length_app in Hl.
    destruct tok; [done|]. simpl in Hl |- *. lia. }
  cbn [find_all]. rewrite Hexec. cbn [final matched rest endIndex].
  destruct (IH r (i + length tok)) as (ms & Hms & Hscan); [simpl in *; lia|].
  exists (FoundMatch [] tok (MState (i + length tok) r []) :: ms).
  destruct tok as [|b tok'] eqn:Htok'; [done|]. rewrite Hms. split; [done|].
  rewrite fmap_cons, Hscan. cbn [matched length scan]. fold tok r. rewrite Htok'.
  f_equal. cbn [length] in Hr. clear -Hr. revert Hr. generalize (length t). intros n Hn.
  assert (Hfuel : ∀ n m s', length s' ≤ n → length s' ≤ m → scan n s' = scan m s').
  { clear. induction n as [|n IHn]; intros m s' Hn Hm.
    - destruct s'; [by destruct m|simpl in Hn; exfalso; lia].
    - destruct s' as [|c s']; [by destruct m|]. destruct m as [|m]; [simpl in Hm; exfalso; lia|].
      cbn [scan]. f_equal.
      assert (length (next_token (c :: s')).2 ≤ length s').
      { destruct (token_re_next 0 c s') as (_ & Hsplit & Hne).
        apply (f_equal length) in Hsplit. rewrite length_app in Hsplit.
        destruct (next_token (c :: s')).1; [done|]. cbn [length] in Hsplit. lia. }
      cbn [length] in Hn, Hm. apply IHn; lia. }
  apply Hfuel; lia.
Qed.

Lemma next_token_shorter a t : length (next_token (a :: t)).2 ≤ length t.
Proof.
  destruct (token_re_next 0 a t) as (_ & Hsplit & Hne).
  apply (f_equal length) in Hsplit. rewrite length_app in Hsplit.
  destruct (next_token (a :: t)).1; [done|]. cbn [length] in Hsplit. lia.
Qed.

Lemma scan_fuel n : ∀ m s, length s ≤ n → length s ≤ m → scan n s = scan m s.
Proof.
  induction n as [|n IHn]; intros m s Hn Hm.
  - destruct s; [by destruct m|simpl in Hn; exfalso; lia].
  - destruct s as [|c s]; [by destruct m|]. destruct m as [|m]; [simpl in Hm; exfalso; lia|].
    cbn [scan]. f_equal. pose proof (next_token_shorter c s).
    cbn [length] in Hn, Hm. apply IHn; lia.
Qed.

Lemma tokenizeKeepPunct_scan s : tokenizeKeepPunct s = scan (length s) s.
Proof.
  unfold tokenizeKeepPunct, match_global.
  destruct (find_all_scan (S (length s)) s 0) as (ms & -> & Hscan); [lia|done].
Qed.

(** X1. The tokenizer is a scanner by longest match: the first token of a text
    that is not empty is the longest word, or else the longest run without
    a letter, the text starts with, and the other tokens are the tokens of
    what follows it. *)
Theorem tokenize_by_longest_match s :
  tokenizeKeepPunct s
  = match s with
    | [] => []
    | _ :: _ => (next_token s).1 :: tokenizeKeepPunct (next_token s).2
    end.
Proof.
  rewrite tokenizeKeepPunct_scan. destruct s as [|a t]; [done|].
  cbn [length scan]. f_equal. rewrite tokenizeKeepPunct_scan.
  pose proof (next_token_shorter a t). apply scan_fuel; lia.
Qed.

Lemma word_test_head tok :
  regexp_test word_only_re tok = true → ∃ a t, tok = a :: t ∧ is_letter a = true.
Proof.
  unfold regexp_test. intros Hm%bool_decide_eq_true.
  destruct tok as [|a t]; [by destruct Hm|].
  exists a, t. split; [done|]. destruct (is_letter a) eqn:Ha; [done|].
  cbn [regexp_exec] in Hm.
  replace (rmatch word_only_re (MState 0 (a :: t) []) Some) with (@None mstate) in Hm
    by (simpl; by rewrite Ha).
  unfold word_only_re in Hm. rewrite regexp_exec_bol_later in Hm by lia. by destruct Hm.
Qed.

Lemma word_tail_head r q t :
  (word_tail r).1 = q :: t → is_letter q = false.
Proof.
  destruct r as [|q' [|b r]]; simpl; [done..|].
  destruct (is_char 39 q') eqn:Hq; simpl; [|done].
  destruct (is_letter b); simpl; [|done].
  intros [= <- _]. apply N.eqb_eq in Hq. by subst.
Qed.

Lemma word_tail_again r : word_tail (word_tail r).1 = ((word_tail r).1, []).
Proof.
  destruct r as [|q [|b r]]; simpl; [done..|].
  destruct (is_char 39 q) eqn:Hq; simpl; [|done].
  destruct (is_letter b) eqn:Hb; simpl; [|done].
  rewrite Hq, Hb. simpl.
  by destruct (run_all is_letter (run is_letter r) (run_Forall _ _)) as [-> ->].
Qed.

(** A run of letters with its tail passes the test of a word token. *)
Lemma word_token_test a w r :
  is_letter a = true → Forall (λ c, is_letter c = true) w →
  regexp_test word_only_re ((a :: w) ++ (word_tail r).1) = true.
Proof.
  intros Ha Hw. unfold regexp_test. apply bool_decide_eq_true.
  set (tail := (word_tail r).1).
  assert (Hrun : run is_letter ((a :: w) ++ tail) = a :: w
               ∧ after_run is_letter ((a :: w) ++ tail) = tail).
  { destruct tail as [|q tl] eqn:Htail.
    - rewrite app_nil_r. apply run_all. by constructor.
    - apply run_app_stop; [by constructor|]. by eapply word_tail_head. }
  destruct Hrun as [Hrun Hafter].
  assert (Hmatch : rmatch word_only_re (MState 0 ((a :: w) ++ tail) []) Some
                   = Some (MState (length (a :: w) + length tail) [] [])).
  { change (rmatch word_only_re (MState 0 ((a :: w) ++ tail) []) Some)
      with (repeat_class is_letter true 1 []
              (λ y, rmatch (ROpt (RSeq (RClass (is_char 39)) (RRep is_letter 1 true))) y
                      (λ y', rmatch REol y' Some))
              0 (a :: w ++ tail)).
    apply repeat_class_plus_first; [done|].
    change (a :: w ++ tail) with ((a :: w) ++ tail). rewrite Hrun, Hafter.
    apply word_tail_match. unfold tail. by rewrite word_tail_again. }
  destruct ((a :: w) ++ tail) eqn:Htok; cbn [regexp_exec]; by rewrite Hmatch.
Qed.

Lemma next_token_word a t :
  is_letter a = true →
  regexp_test word_only_re (next_token (a :: t)).1 = true
  ∧ ∀ b r, (next_token (a :: t)).2 = b :: r → is_letter b = false.
Proof.
  intros Ha. unfold next_token. rewrite Ha. cbn [fst snd]. split.
  - pose proof (run_Forall is_letter (a :: t)) as Hrun. simpl in Hrun |- *.
    rewrite Ha in Hrun |- *. apply Forall_cons in Hrun as [_ Hrun].
    by apply word_token_test.
  - intros b r.
    pose proof (after_run_head is_letter (a :: t)) as Hhead.
    destruct (after_run is_letter (a :: t)) as [|q [|b' r']]; simpl; [done|..].
    + intros [= <- <-]. by eapply Hhead.
    + destruct (is_char 39 q && is_letter b').
      * simpl. apply after_run_head.
      * simpl. intros [= <- <-]. by eapply Hhead.
Qed.

Lemma next_token_separator a t :
  is_letter a = false →
  letter_free (next_token (a :: t)).1
  ∧ regexp_test word_only_re (next_token (a :: t)).1 = false
  ∧ ∀ b r, (next_token (a :: t)).2 = b :: r → is_letter b = true.
Proof.
  intros Ha. unfold next_token. rewrite Ha. cbn [fst snd]. split_and!.
  - eapply Forall_impl; [apply run_Forall|]. intros c Hc. by apply negb_true_iff in Hc.
  - destruct (regexp_test _ _) eqn:Htest; [|done].
    apply word_test_head in Htest as (b & r & Hrun & Hb). simpl in Hrun.
    unfold is_not_letter in Hrun at 1. rewrite Ha in Hrun. simpl in Hrun. congruence.
  - intros b r Hb%after_run_head. by apply negb_false_iff in Hb.
Qed.

(** X2. Kinds of tokens: no token is empty, and a token either passes the test
    of a word token or has no letter in it. *)
Theorem tokens_shape s :
  Forall (λ tok, tok ≠ [] ∧ (regexp_test word_only_re tok = true ∨ letter_free tok))
    (tokenizeKeepPunct s).
Proof.
  rewrite tokenizeKeepPunct_scan. generalize (length s). intros fuel. revert s.
  induction fuel as [|fuel IH]; intros [|a t]; cbn [scan]; [done..|].
  constructor; [|apply IH].
  destruct (token_re_next 0 a t) as (_ & _ & Hne). split; [done|].
  destruct (is_letter a) eqn:Ha.
  - left. by apply next_token_word.
  - right. by apply next_token_separator.
Qed.

(** X3. Word tokens and separators alternate: of two tokens in a row, exactly
    one passes the test of a word token. *)
Theorem tokens_alternate s i t1 t2 :
  tokenizeKeepPunct s !! i = Some t1 →
  tokenizeKeepPunct s !! S i = Some t2 →
  regexp_test word_only_re t2 = negb (regexp_test word_only_re t1).
Proof.
  rewrite tokenizeKeepPunct_scan. generalize (length s). intros fuel. revert s i.
  induction fuel as [|fuel IH]; intros [|a t] i; cbn [scan]; [done..|].
  pose proof (next_token_word a t) as Hword.
  pose proof (next_token_separator a t) as Hsep.
  destruct (next_token (a :: t)) as [tok rest]. cbn [fst snd] in *.
  destruct i as [|i]; [|apply IH].
  intros [= <-]. destruct fuel as [|fuel]; [done|].
  destruct rest as [|b r]; [done|]. cbn [scan].
  pose proof (next_token_word b r) as Hword'.
  pose proof (next_token_separator b r) as Hsep'.
  destruct (next_token (b :: r)) as [tok' rest']. cbn [fst snd] in *.
  intros [= <-].
  destruct (is_letter a) eqn:Ha.
  - destruct (Hword eq_refl) as [-> Hhead].
    by destruct (Hsep' (Hhead _ _ eq_refl)) as (_ & -> & _).
  - destruct (Hsep eq_refl) as (_ & -> & Hhead).
    by destruct (Hword' (Hhead _ _ eq_refl)) as [-> _].
Qed.

Lemma word_run_split a w r :
  is_letter a = true → Forall (λ c, is_letter c = true) w →
  run is_letter ((a :: w) ++ (word_tail r).1) = a :: w
  ∧ after_run is_letter ((a :: w) ++ (word_tail r).1) = (word_tail r).1.
Proof.
  intros Ha Hw. destruct (word_tail r).1 as [|q tl] eqn:Htail.
  - rewrite app_nil_r. apply run_all. by constructor.
  - apply run_app_stop; [by constructor|]. by eapply word_tail_head.
Qed.

Lemma next_token_again a t :
  next_token (next_token (a :: t)).1 = ((next_token (a :: t)).1, []).
Proof.
  unfold next_token at 2 3. destruct (is_letter a) eqn:Ha; cbn [fst].
  - pose proof (run_Forall is_letter (a :: t)) as Hrun. cbn [run] in Hrun |- *.
    rewrite Ha in Hrun |- *. apply Forall_cons in Hrun as [_ Hrun].
    destruct (word_run_split a (run is_letter t)
                (after_run is_letter (a :: t)) Ha Hrun) as [Hr Hafter].
    cbn [after_run] in Hr, Hafter |- *. rewrite Ha in Hr, Hafter |- *.
    unfold next_token. cbn [app] in *. rewrite Ha, Hr, Hafter, word_tail_again. done.
  - assert (Hna : is_not_letter a = true) by (unfold is_not_letter; by rewrite Ha).
    pose proof (run_Forall is_not_letter (a :: t)) as Hrun. cbn [run] in Hrun |- *.
    rewrite Hna in Hrun |- *. unfold next_token. rewrite Ha.
    by destruct (run_all _ _ Hrun) as [-> ->].
Qed.

Lemma scan_elem fuel :
  ∀ s tok, tok ∈ scan fuel s → ∃ a t, tok = (next_token (a :: t)).1.
Proof.
  induction fuel as [|fuel IH]; intros [|a t] tok; cbn [scan];
    try (by intros ?%elem_of_nil).
  intros [->|Hin]%elem_of_cons; [by eauto|]. by eapply IH.
Qed.

(** X4. Tokens are stable: tokenizing a token of a text gives that token and
    nothing else. *)
Theorem tokens_are_tokens s tok :
  tok ∈ tokenizeKeepPunct s → tokenizeKeepPunct tok = [tok].
Proof.
  rewrite tokenizeKeepPunct_scan. intros (a & t & ->)%scan_elem.
  rewrite tokenizeKeepPunct_scan.
  destruct (token_re_next 0 a t) as (_ & _ & Hne).
  pose proof (next_token_again a t) as Hagain.
  destruct (next_token (a :: t)).1 as [|b tok]; [done|].
  cbn [length scan]. rewrite Hagain. cbn [fst snd]. by destruct (length tok).
Qed.

(** ** Normalizing white space *)

Lemma run_take p s : take (length (run p s)) s = run p s.
Proof. induction s as [|a t IH]; simpl; [done|]. destruct (p a); simpl; [by f_equal|done]. Qed.

(** A search for white space skips what is not, and takes the whole run. *)
Lemma spaces_exec s :
  ∀ i, regexp_exec spaces_re i s
       = match after_run is_not_space s with
         | [] => None
         | b :: t =>
             Some (FoundMatch (run is_not_space s) (b :: run is_space t)
                     (MState (i + length (run is_not_space s) + S (length (run is_space t)))
                        (after_run is_space t) []))
         end.
Proof.
  induction s as [|a t IH]; intros i; [done|].
  cbn [regexp_exec after_run run].
  change (rmatch spaces_re (MState i (a :: t) []) Some)
    with (repeat_class is_space true 1 [] Some i (a :: t)).
  destruct (is_space a) eqn:Ha.
  - assert (Hna : is_not_space a = false) by (unfold is_not_space; by rewrite Ha).
    rewrite !Hna. erewrite repeat_class_plus_first; [|done|done].
    cbn [run after_run endIndex length]. rewrite Ha. cbn [length].
    do 2 f_equal.
    + replace (i + S (length (run is_space t)) - i) with (S (length (run is_space t))) by lia.
      cbn [take]. by rewrite run_take.
    + f_equal. lia.
  - assert (Hna : is_not_space a = true) by (unfold is_not_space; by rewrite Ha).
    rewrite !Hna.
    replace (repeat_class is_space true 1 [] Some i (a :: t)) with (@None mstate)
      by (simpl; by rewrite Ha).
    rewrite IH. destruct (after_run is_not_space t); [done|].
    cbn [fmap option_fmap option_map skip_one skipped matched final length].
    by replace (S i + length (run is_not_space t)) with (i + S (length (run is_not_space t))) by lia.
Qed.

Lemma collapse_skip s :
  collapse s = run is_not_space s ++ collapse (after_run is_not_space s).
Proof.
  induction s as [|a t IH]; [done|]. cbn [run after_run].
  destruct (is_space a) eqn:Ha.
  - assert (Hna : is_not_space a = false) by (unfold is_not_space; by rewrite Ha).
    by rewrite !Hna.
  - assert (Hna : is_not_space a = true) by (unfold is_not_space; by rewrite Ha).
    rewrite !Hna. cbn [collapse]. rewrite Ha. by rewrite IH.
Qed.

Lemma collapse_space_run a t :
  is_space a = true → collapse (a :: t) = 32%N :: collapse (after_run is_space t).
Proof.
  revert a. induction t as [|b t IH]; intros a Ha.
  - simpl. by rewrite Ha.
  - change (collapse (a :: b :: t))
      with (if is_space a then (if is_space b then collapse (b :: t) else 32%N :: collapse (b :: t))
            else a :: collapse (b :: t)).
    rewrite Ha. cbn [after_run]. destruct (is_space b) eqn:Hb; [|done]. by apply IH.
Qed.

Lemma replace_spaces fuel :
  ∀ s i, length s < fuel →
    concat ((λ m, skipped m ++ js " ") <$> (find_all fuel spaces_re i s).1)
      ++ (find_all fuel spaces_re i s).2
    = collapse s.
Proof.
  induction fuel as [|fuel IH]; intros s i Hlen; [lia|].
  cbn [find_all]. rewrite spaces_exec, (collapse_skip s).
  pose proof (run_after_run is_not_space s) as Hsplit.
  destruct (after_run is_not_space s) as [|b t] eqn:Hafter.
  - simpl. by rewrite Hsplit at 1.
  - cbn [final matched rest endIndex fst snd fmap list_fmap concat].
    pose proof (after_run_head _ _ _ _ Hafter) as Hb. apply negb_false_iff in Hb.
    rewrite (collapse_space_run b t Hb), <- (IH (after_run is_space t)
      (i + length (run is_not_space s) + S (length (run is_space t)))).
    + by rewrite <- !(assoc_L (++)).
    + apply (f_equal length) in Hsplit. rewrite length_app in Hsplit. simpl in Hsplit.
      pose proof (after_run_length is_space t). lia.
Qed.

(** [normalizeSpaces] trims, then collapses. *)
Lemma normalizeSpaces_collapse s : normalizeSpaces s = collapse (trim s).
Proof. unfold normalizeSpaces, replace_global. apply replace_spaces. lia. Qed.

Lemma trimStart_after_run s : trimStart s = after_run is_space s.
Proof. induction s as [|a t IH]; simpl; [done|]. by destruct (is_space a). Qed.

Lemma trimStart_head s a t : trimStart s = a :: t → is_space a = false.
Proof. rewrite trimStart_after_run. apply after_run_head. Qed.

Lemma trimStart_id s : (∀ a t, s = a :: t → is_space a = false) → trimStart s = s.
Proof. destruct s as [|a t]; [done|]. intros Hs. simpl. by rewrite (Hs a t). Qed.

Lemma trimStart_suffix s : ∃ pre, s = pre ++ trimStart s.
Proof.
  exists (run is_space s). rewrite trimStart_after_run. apply run_after_run.
Qed.

Lemma trimEnd_prefix s : ∃ post, s = trimEnd s ++ post.
Proof.
  unfold trimEnd. destruct (trimStart_suffix (reverse s)) as [pre Hpre].
  exists (reverse pre). rewrite <- reverse_app, <- Hpre. by rewrite reverse_involutive.
Qed.

Lemma trimEnd_last s u a : trimEnd s = u ++ [a] → is_space a = false.
Proof.
  unfold trimEnd. intros Hs. apply (f_equal reverse) in Hs.
  rewrite reverse_involutive, reverse_app, reverse_singleton in Hs.
  by eapply trimStart_head.
Qed.

Lemma trimEnd_id s : (∀ u a, s = u ++ [a] → is_space a = false) → trimEnd s = s.
Proof.
  intros Hs. unfold trimEnd. rewrite trimStart_id; [apply reverse_involutive|].
  intros a t Ht. apply (Hs (reverse t) a).
  apply (f_equal reverse) in Ht. rewrite reverse_involutive in Ht.
  by rewrite Ht, reverse_cons.
Qed.

Lemma trim_head s a t : trim s = a :: t → is_space a = false.
Proof.
  unfold trim. intros Hs. destruct (trimEnd_prefix (trimStart s)) as [post Hpost].
  rewrite Hs in Hpost. by eapply trimStart_head.
Qed.

Lemma trim_last s u a : trim s = u ++ [a] → is_space a = false.
Proof. apply trimEnd_last. Qed.

Lemma collapse_spaced s :
  (∀ u a, s = u ++ [a] → is_space a = false) → spaced (collapse s).
Proof.
  induction s as [|a t IH]; intros Hlast; [done|].
  assert (Ht : ∀ u b, t = u ++ [b] → is_space b = false).
  { intros u b ->. by apply (Hlast (a :: u) b). }
  destruct t as [|b t].
  - simpl. rewrite (Hlast [] a eq_refl). split; [|done].
    intros Ha. by rewrite (Hlast [] a eq_refl) in Ha.
  - change (collapse (a :: b :: t))
      with (if is_space a then (if is_space b then collapse (b :: t) else 32%N :: collapse (b :: t))
            else a :: collapse (b :: t)).
    destruct (is_space a) eqn:Ha.
    + destruct (is_space b) eqn:Hb; [by apply IH|].
      split; [|by apply IH]. intros _. split; [done|].
      cbn [collapse]. rewrite Hb. by eauto.
    + split; [|by apply IH]. intros Ha'. by rewrite Ha in Ha'.
Qed.

Lemma spaced_collapse s : spaced s → collapse s = s.
Proof.
  induction s as [|a t IH]; [done|]. intros [Ha Ht]. cbn [collapse].
  destruct (is_space a) eqn:Hsp.
  - destruct (Ha eq_refl) as (-> & d & t' & -> & Hd). rewrite Hd. by rewrite IH.
  - by rewrite IH.
Qed.

Lemma spaced_last s u a : spaced s → s = u ++ [a] → is_space a = false.
Proof.
  revert s. induction u as [|b u IH]; intros s Hs ->.
  - destruct Hs as [Ha _]. destruct (is_space a); [|done].
    by destruct (Ha eq_refl) as (_ & d & t' & ? & _).
  - destruct Hs as [_ Hs]. by eapply IH.
Qed.

(** [normalizeSpaces] gives normalized text. *)
Lemma normalizeSpaces_normal s : normalized (normalizeSpaces s).
Proof.
  rewrite normalizeSpaces_collapse. split.
  - intros a t Hc. destruct (trim s) as [|b r] eqn:Htrim; [done|].
    pose proof (trim_head _ _ _ Htrim) as Hb. cbn [collapse] in Hc. rewrite Hb in Hc.
    by injection Hc as <- _.
  - apply collapse_spaced. apply trim_last.
Qed.

(** Normalized text is left as it is. *)
Lemma normalized_fixed s : normalized s → normalizeSpaces s = s.
Proof.
  intros [Hhead Hspaced]. rewrite normalizeSpaces_collapse.
  assert (Htrim : trim s = s).
  { unfold trim. rewrite (trimStart_id _ Hhead). apply trimEnd_id.
    intros u a. by apply spaced_last. }
  rewrite Htrim. by apply spaced_collapse.
Qed.

(** X5. The result of [normalizeSpaces] is normalized: it neither starts nor
    ends with white space, and its only white space is single spaces
    between other code units. *)
Theorem normalizeSpaces_normalized s :
  normalized (normalizeSpaces s)
  ∧ ∀ u a, normalizeSpaces s = u ++ [a] → is_space a = false.
Proof.
  pose proof (normalizeSpaces_normal s) as Hn. split; [done|].
  intros u a. apply spaced_last, Hn.
Qed.

(** X6. The normalized texts are the texts [normalizeSpaces] leaves as they
    are. *)
Theorem normalizeSpaces_fixed s : normalized s ↔ normalizeSpaces s = s.
Proof.
  split; [apply normalized_fixed|]. intros <-. apply normalizeSpaces_normal.
Qed.

Lemma filter_trimStart s :
  filter (λ c, is_space c = false) (trimStart s) = filter (λ c, is_space c = false) s.
Proof.
  induction s as [|a t IH]; simpl; [done|]. destruct (is_space a) eqn:Ha; [|done].
  rewrite IH. rewrite filter_cons_False; [done|]. by rewrite Ha.
Qed.

Lemma filter_collapse s :
  filter (λ c, is_space c = false) (collapse s) = filter (λ c, is_space c = false) s.
Proof.
  induction s as [|a t IH]; [done|]. cbn [collapse].
  destruct (is_space a) eqn:Ha.
  - rewrite (filter_cons_False _ a) by (by rewrite Ha).
    destruct t as [|b t]; [done|]. destruct (is_space b); [done|].
    by rewrite filter_cons_False.
  - rewrite !filter_cons_True by done. by rewrite IH.
Qed.

(** X7. [normalizeSpaces] only touches white space: the other code units come
    out as they went in, in the same order. *)
Theorem normalizeSpaces_keeps_text s :
  filter (λ c, is_space c = false) (normalizeSpaces s)
  = filter (λ c, is_space c = false) s.
Proof.
  rewrite normalizeSpaces_collapse, filter_collapse. unfold trim, trimEnd.
  by rewrite filter_reverse, filter_trimStart, filter_reverse, reverse_involutive,
    filter_trimStart.
Qed.

Section Normalized.
Context `{Host}.

(** X8. Normalizing twice is normalizing once, so a phrase is looked up under
    the same key whether or not the text has been normalized before. *)
Theorem lookupPhrase_normalized σ text :
  normalizeSpaces (normalizeSpaces text) = normalizeSpaces text
  ∧ lookupPhrase (normalizeSpaces text) σ = lookupPhrase text σ.
Proof.
  assert (Hidem : normalizeSpaces (normalizeSpaces text) = normalizeSpaces text)
    by apply normalized_fixed, normalizeSpaces_normal.
  split; [done|]. unfold lookupPhrase. by rewrite Hidem.
Qed.

End Normalized.

(** ** Translating *)

Lemma tokenize_concat s : concat (tokenizeKeepPunct s) = s.
Proof.
  unfold tokenizeKeepPunct, match_global.
  destruct (find_all_token_re (S (length s)) s 0) as (ms & -> & Hcat & _); [lia|done].
Qed.

Lemma join_empty_strings (l : list jsstring) `{Host} :
  join_empty (VStr <$> l) = Normal (concat l).
Proof. induction l as [|x l IH]; [done|]. cbn [fmap list_fmap join_empty]. simpl. by rewrite IH. Qed.

Lemma ascii_lower_upper c : ascii_lower (ascii_upper c) = ascii_lower c.
Proof.
  unfold ascii_upper. destruct (is_lower_letter c) eqn:Hl; [|done].
  unfold ascii_lower, is_upper_letter, is_lower_letter in *.
  apply andb_true_iff in Hl as [Hlo%N.leb_le Hhi%N.leb_le].
  assert (H1 : (65 <=? c - 32)%N = true) by (apply N.leb_le; lia).
  assert (H2 : (c - 32 <=? 90)%N = true) by (apply N.leb_le; lia).
  assert (H3 : (c <=? 90)%N = false) by (apply N.leb_gt; lia).
  rewrite H1, H2, H3, andb_false_r. simpl. lia.
Qed.

Lemma forallb_app_ascii (l1 l2 : jsstring) :
  forallb is_ascii (l1 ++ l2) = true → forallb is_ascii l1 = true ∧ forallb is_ascii l2 = true.
Proof. rewrite forallb_app. apply andb_true_iff. Qed.

Section Translating.
Context `{Host}.

Lemma applyCasing_ascii tok t :
  forallb is_ascii t = true →
  ∃ r, applyCasing tok (VStr t) = Normal (VStr r)
       ∧ ascii_lower <$> r = ascii_lower <$> t.
Proof.
  intros Ht. destruct t as [|c t]; [by exists []|].
  unfold applyCasing. change (negb (truthy (VStr (c :: t)))) with false. cbv iota.
  assert (Hc : forallb is_ascii [c] = true ∧ forallb is_ascii t = true)
    by (by apply (forallb_app_ascii [c] t)).
  destruct Hc as [Hc Htl].
  assert (Hupper : ∀ l : jsstring, ascii_lower <$> (ascii_upper <$> l) = ascii_lower <$> l).
  { intros l. rewrite <- list_fmap_compose. apply list_fmap_ext. intros _ x _. apply ascii_lower_upper. }
  assert (Hlower : ∀ l : jsstring, ascii_lower <$> (ascii_lower <$> l) = ascii_lower <$> l).
  { intros l. rewrite <- list_fmap_compose. apply list_fmap_ext. intros _ x _. apply ascii_lower_idemp. }
  destruct (isAllCaps tok); [|destruct (isTitleCase tok); [|destruct (str_eqb _ _)]]; simpl.
  - eexists. split; [done|]. by rewrite toUpperCase_ascii, Hupper.
  - eexists. split; [done|]. unfold slice_from_1. simpl.
    rewrite (toUpperCase_ascii [c]), (toLowerCase_ascii t) by done.
    rewrite fmap_app, Hupper, Hlower. done.
  - eexists. split; [done|]. by rewrite toLowerCase_ascii, Hlower.
  - by eexists.
Qed.

(** X9. Casing transfer changes the case of letters and nothing else: for a
    translation of ASCII code units the result is a string of the same
    length that equals the translation up to the case of its letters. *)
Theorem applyCasing_letter_case tok t :
  forallb is_ascii t = true →
  ∃ r, applyCasing tok (VStr t) = Normal (VStr r)
       ∧ ascii_lower <$> r = ascii_lower <$> t
       ∧ length r = length t.
Proof.
  intros Ht. destruct (applyCasing_ascii tok t Ht) as (r & Hr & Hlow).
  exists r. split_and!; [done..|].
  apply (f_equal length) in Hlow. by rewrite !length_fmap in Hlow.
Qed.

Lemma lookupKey_case tok1 tok2 :
  toLowerCase tok1 = toLowerCase tok2 →
  lookupKey tok1 = lookupKey tok2 ∧ isPossessive tok1 = isPossessive tok2.
Proof. intros Hlow. unfold lookupKey, isPossessive. by rewrite Hlow. Qed.

(** X10. The casing of a word decides the casing of its translation and
    nothing else: two word tokens that differ in the case of their letters
    only are translated to strings that differ in the case of their
    letters only, when what is stored for them is an ASCII string or
    nothing. *)
Theorem translateToken_case σ tok1 tok2 :
  regexp_test word_only_re tok1 = true →
  regexp_test word_only_re tok2 = true →
  ascii_lower <$> tok1 = ascii_lower <$> tok2 →
  (translation_of (activeDict σ ≫= λ d, words d !! lookupKey tok1) = VNull
   ∨ ∃ t, translation_of (activeDict σ ≫= λ d, words d !! lookupKey tok1) = VStr t
          ∧ forallb is_ascii t = true) →
  ∃ r1 r2,
    outcome (translateToken tok1) σ = Normal (VStr r1)
    ∧ outcome (translateToken tok2) σ = Normal (VStr r2)
    ∧ ascii_lower <$> r1 = ascii_lower <$> r2.
Proof.
  intros Htok1 Htok2 Hcase Hfound.
  assert (Hlow : toLowerCase tok1 = toLowerCase tok2)
    by (by rewrite !word_token_lower).
  destruct (lookupKey_case _ _ Hlow) as [Hkey Hposs].
  unfold outcome. rewrite !translateToken_word by done. rewrite <- Hkey. cbn [fst].
  unfold translated_token. rewrite <- Hposs.
  assert (Hmiss : ∃ r1 r2 : jsstring,
    Normal (VStr (if markUnknown σ then js "[" ++ tok1 ++ js "]" else tok1)) = Normal (VStr r1)
    ∧ Normal (VStr (if markUnknown σ then js "[" ++ tok2 ++ js "]" else tok2)) = Normal (VStr r2)
    ∧ ascii_lower <$> r1 = ascii_lower <$> r2).
  { eexists _, _. split_and!; [done..|].
    destruct (markUnknown σ); [|done]. by rewrite !fmap_app, Hcase. }
  destruct Hfound as [->|(t & -> & Ht)]; [exact Hmiss|].
  destruct t as [|c t]; [exact Hmiss|].
  change (truthy (VStr (c :: t))) with true. cbv iota.
  destruct (applyCasing_ascii tok1 _ Ht) as (r1 & -> & Hr1).
  destruct (applyCasing_ascii tok2 _ Ht) as (r2 & -> & Hr2).
  simpl. destruct (isPossessive tok1); simpl.
  - eexists _, _. split_and!; [done..|]. by rewrite !fmap_app, Hr1, Hr2.
  - eexists _, _. split_and!; [done..|]. by rewrite Hr1, Hr2.
Qed.

Lemma js_map_unknown σ toks :
  (∀ tok, tok ∈ toks → regexp_test word_only_re tok = true →
     outcome (lookupWord (lookupKey tok)) σ = Normal VNull) →
  js_map translateToken toks σ
  = (Normal (VStr <$> ((λ tok, if markUnknown σ then marked tok else tok) <$> toks)), σ).
Proof.
  induction toks as [|tok toks IH]; intros Hmiss; [done|].
  cbn [js_map]. unfold mbind at 1. unfold JS_bind at 1.
  assert (Htok : translateToken tok σ
                 = (Normal (VStr (if markUnknown σ then marked tok else tok)), σ)).
  { unfold marked. destruct (regexp_test word_only_re tok) eqn:Htest.
    - pose proof (Hmiss tok (list_elem_of_here _ _) Htest) as Hnull.
      rewrite (lookupWord_key _ _ Htest) in Hnull. injection Hnull as Hnull.
      rewrite (translateToken_word _ _ Htest), Hnull. done.
    - rewrite (translateToken_separator _ _ Htest). by destruct (markUnknown σ). }
  rewrite Htok. unfold mbind at 1. unfold JS_bind at 1.
  rewrite IH; [done|]. intros tok' Hin. apply Hmiss. by apply list_elem_of_further.
Qed.

(** X11. Text the dictionary does not know passes through: when no word token
    of the text has a translation and the text is no phrase, the text is
    returned as it is, or with each word token in brackets when unknown
    words are marked. *)
Theorem unknown_text_passes σ d text :
  activeDict σ = Some d →
  (∀ tok, tok ∈ tokenizeKeepPunct text → regexp_test word_only_re tok = true →
     outcome (lookupWord (lookupKey tok)) σ = Normal VNull) →
  outcome (lookupPhrase text) σ = Normal VNull →
  outcome (translateText text) σ
  = Normal (VStr (if markUnknown σ then concat (marked <$> tokenizeKeepPunct text) else text)).
Proof.
  intros Hd Hmiss Hphrase.
  assert (Hwords : outcome (wordByWord text) σ
    = Normal (if markUnknown σ then concat (marked <$> tokenizeKeepPunct text) else text)).
  { unfold outcome, wordByWord. unfold mbind at 1. unfold JS_bind at 1.
    rewrite (js_map_unknown _ _ Hmiss). unfold lift. cbn [fst].
    rewrite join_empty_strings. destruct (markUnknown σ); [done|].
    by rewrite list_fmap_id, tokenize_concat. }
  unfold outcome at 1. rewrite (translateText_run _ _ _ Hd). cbn [fst]. cbv zeta.
  rewrite Hwords, Hphrase. by destruct (preferPhrases σ).
Qed.

(** X12. Looking up and translating only read the globals: whatever the text
    and whatever the result, also when a value of the wrong shape makes
    the translation raise, the dictionary and the check boxes are as
    before. *)
Theorem translating_reads_only σ text :
  after (lookupWord text) σ = σ
  ∧ after (lookupPhrase text) σ = σ
  ∧ after (translateToken text) σ = σ
  ∧ after (translateText text) σ = σ.
Proof.
  split_and!.
  - unfold after. by rewrite lookupWord_run.
  - unfold after. by rewrite lookupPhrase_run.
  - apply translateToken_store.
  - apply translateText_store.
Qed.



End Translating.

(** ** Adding lines, further *)

Lemma regexp_exec_start r :
  ∀ s i m, regexp_exec r i s = Some m →
    ∃ j pre s', s = pre ++ s' ∧ rmatch r (MState j s' []) Some = Some (final m).
Proof.
  induction s as [|a t IH]; intros i m Hm; cbn [regexp_exec] in Hm.
  - destruct (rmatch r _ _) as [y|] eqn:Hy; [|done]. simplify_eq. by exists i, [], [].
  - destruct (rmatch r _ _) as [y|] eqn:Hy.
    + simplify_eq. by exists i, [], (a :: t).
    + destruct (regexp_exec r (S i) t) as [m'|] eqn:Hm'; [|done]. injection Hm as <-.
      destruct (IH _ _ Hm') as (j & pre & s' & -> & Hmatch). by exists j, (a :: pre), s'.
Qed.

Lemma rmatch_seq r1 r2 x c : rmatch (RSeq r1 r2) x c = rmatch r1 x (λ y, rmatch r2 y c).
Proof. done. Qed.

(** A line the pattern of [parseQuickAddLines] matches has an equals sign. *)
Lemma line_re_equals line m : regexp_exec line_re 0 line = Some m → 61%N ∈ line.
Proof.
  intros (j & pre & s' & -> & Hmatch)%regexp_exec_start.
  apply elem_of_app. right. unfold line_re in Hmatch.
  rewrite rmatch_seq in Hmatch.
  apply (rmatch_reads (λ _, True)) in Hmatch as (w0 & y0 & Hmatch & [Hr0 _] & _);
    [|by apply classes_in_True].
  cbv beta in Hmatch. rewrite rmatch_seq in Hmatch.
  apply (rmatch_reads (λ _, True)) in Hmatch as (w1 & y1 & Hmatch & [Hr1 _] & _);
    [|by apply classes_in_True].
  cbv beta in Hmatch. rewrite rmatch_seq in Hmatch.
  apply (rmatch_reads (λ _, True)) in Hmatch as (w2 & y2 & Hmatch & [Hr2 _] & _);
    [|by apply classes_in_True].
  cbv beta in Hmatch. rewrite rmatch_seq in Hmatch.
  cbn [rest] in Hr0. rewrite Hr0, Hr1, Hr2. do 3 (apply elem_of_app; right).
  destruct y2 as [i2 [|c t] caps2]; [done|]. cbn [rmatch rest] in Hmatch. cbn [rest].
  destruct (is_char 61 c) eqn:Hc; [|done]. apply N.eqb_eq in Hc. subst c. by left.
Qed.

Lemma split_lines_elem s :
  ∀ l c, l ∈ split_lines s → c ∈ l → c ∈ s.
Proof.
  induction s as [|a t IH]; intros l c Hl Hc.
  - simpl in Hl. apply list_elem_of_singleton in Hl. by subst.
  - cbn [split_lines] in Hl. destruct (is_char 10 a).
    + apply elem_of_cons in Hl as [->|Hl]; [by apply elem_of_nil in Hc|].
      right. by eapply IH.
    + destruct (split_lines t) as [|l' ls] eqn:Hsplit.
      * apply list_elem_of_singleton in Hl. subst. apply list_elem_of_singleton in Hc. subst. by left.
      * apply elem_of_cons in Hl as [->|Hl].
        -- apply elem_of_cons in Hc as [->|Hc]; [by left|]. right. apply (IH l'); [by left|done].
        -- right. apply (IH l); [by right|done].
Qed.

Lemma trim_elem s c : c ∈ trim s → c ∈ s.
Proof.
  unfold trim. intros Hc.
  destruct (trimEnd_prefix (trimStart s)) as [post Hpost].
  destruct (trimStart_suffix s) as [pre Hpre].
  rewrite Hpre, Hpost. apply elem_of_app. right. apply elem_of_app. by left.
Qed.

Lemma omap_all_None {A B : Type} (f : A → option B) (l : list A) :
  (∀ x, x ∈ l → f x = None) → omap f l = [].
Proof.
  induction l as [|x l IH]; intros Hl; [done|]. simpl.
  rewrite (Hl x) by by left. apply IH. intros y Hy. apply Hl. by right.
Qed.

Lemma named_elem k es v : named k es = Some v → (k, v) ∈ es.
Proof.
  induction es as [|[k' v'] es IH]; simpl; [done|].
  destruct (named k es) as [v''|].
  - intros [= ->]. right. by apply IH.
  - unfold str_eqb. case_bool_decide; [|done]. intros [= ->]. subst. by left.
Qed.

Section AddLinesFurther.
Context `{Host}.

Lemma line_entry_not_empty line k v : line_entry line = Some (k, v) → k ≠ [] ∧ v ≠ [].
Proof.
  unfold line_entry. destruct (regexp_exec line_re 0 line) as [m|]; [|done].
  cbn [mbind option_bind].
  destruct (capture 1 m) as [m1|]; [|done]. cbn [mbind option_bind].
  destruct (capture 2 m) as [m2|]; [|done]. cbn [mbind option_bind]. cbv zeta.
  destruct (str_eqb (toLowerCase _) []) eqn:Hk; [done|].
  destruct (str_eqb (normalizeSpaces m2) []) eqn:Hv; [done|].
  cbn [orb]. intros [= <- <-]. unfold str_eqb in *. by apply bool_decide_eq_false in Hk, Hv.
Qed.

Lemma line_entry_equals line : 61%N ∉ line → line_entry line = None.
Proof.
  intros Hno. unfold line_entry.
  destruct (regexp_exec line_re 0 line) as [m|] eqn:Hm; [|done].
  by apply line_re_equals in Hm.
Qed.

Lemma addLinesClick_run raw σ :
  addLinesClick raw σ
  = let a := foldl add_entry (Adds ∅ ∅) (omap line_entry (lines_of raw)) in
    let count := size (add_words a) + size (add_phrases a) in
    let d0 := ensureDictShape (activeDict σ) in
    let d := Dict (assign_entries (add_words a) (words d0))
                  (assign_entries (add_phrases a) (phrases d0)) in
    (Normal count,
     if count =? 0 then σ
     else Store (Some d) (preferPhrases σ) (markUnknown σ) (Some d)).
Proof.
  unfold addLinesClick. js_run. rewrite parseQuickAddLines_run. simpl.
  by destruct (_ =? 0).
Qed.

(** X14. What the lines add is well formed: [parseQuickAddLines] never raises;
    no key and no value is empty; a key in [words] has no space and is not
    [__proto__]; a key in [phrases] has a space. *)
Theorem quick_add_routing raw :
  ∃ a, parseQuickAddLines raw = Normal a
    ∧ (∀ k v, add_words a !! k = Some v →
         k ≠ [] ∧ v ≠ [] ∧ includes_space k = false ∧ k ≠ js "__proto__")
    ∧ (∀ k v, add_phrases a !! k = Some v →
         k ≠ [] ∧ v ≠ [] ∧ includes_space k = true).
Proof.
  eexists. split; [apply parseQuickAddLines_run|].
  set (es := omap line_entry (lines_of raw)).
  assert (Hes : ∀ k v, named k es = Some v → k ≠ [] ∧ v ≠ []).
  { intros k v Hin%named_elem. apply list_elem_of_omap in Hin as (line & _ & Hline).
    by eapply line_entry_not_empty. }
  destruct (foldl_add_entry_proto es (Adds ∅ ∅)) as [Hpw Hpp]; [done..|].
  split; intros k v Hkv.
  - destruct (decide (k = js "__proto__")) as [->|Hk]; [by rewrite Hpw in Hkv|].
    rewrite (foldl_add_entry_words k es Hk) in Hkv. simpl in Hkv. rewrite lookup_empty in Hkv.
    destruct (named k es) as [v'|] eqn:Hnamed; [|done].
    destruct (includes_space k); [done|]. injection Hkv as ->.
    destruct (Hes _ _ Hnamed). done.
  - destruct (decide (k = js "__proto__")) as [->|Hk]; [by rewrite Hpp in Hkv|].
    rewrite (foldl_add_entry_phrases k es Hk) in Hkv. simpl in Hkv. rewrite lookup_empty in Hkv.
    destruct (named k es) as [v'|] eqn:Hnamed; [|done].
    destruct (includes_space k); [|done]. injection Hkv as ->.
    destruct (Hes _ _ Hnamed). done.
Qed.

(** X15. What is added is found, in a dictionary whose [words] and
    [phrases] are plain objects (the dictionaries of [dict]; an array in
    their place takes the assignments of [mergeAddsIntoDict] differently):
    after the click, a word whose case-folded form is a key some line names
    (the last such line giving the value) is looked up to that value, and
    so is a text whose normalized case-folded form is such a key with a
    space. *)
Theorem added_entry_is_found σ raw k v :
  named k (omap line_entry (lines_of raw)) = Some v →
  k ≠ js "__proto__" →
  let σ' := after (addLinesClick raw) σ in
  (includes_space k = false →
     ∀ w, toLowerCase w = k → outcome (lookupWord w) σ' = Normal (VStr v))
  ∧ (includes_space k = true →
     ∀ text, toLowerCase (normalizeSpaces text) = k →
       outcome (lookupPhrase text) σ' = Normal (VStr v)).
Proof.
  intros Hnamed Hk σ'. set (es := omap line_entry (lines_of raw)) in *.
  set (a := foldl add_entry (Adds ∅ ∅) es).
  assert (Hv : v ≠ []).
  { apply named_elem, list_elem_of_omap in Hnamed as (line & _ & Hline).
    by eapply line_entry_not_empty. }
  pose proof (foldl_add_entry_words k es Hk (Adds ∅ ∅)) as Hw.
  pose proof (foldl_add_entry_phrases k es Hk (Adds ∅ ∅)) as Hp.
  fold a in Hw, Hp. simpl in Hw, Hp. rewrite lookup_empty, Hnamed in Hw, Hp.
  assert (Hcount : (size (add_words a) + size (add_phrases a) =? 0) = false).
  { apply Nat.eqb_neq. intros Hzero.
    assert (add_words a = ∅ ∧ add_phrases a = ∅) as [Hwe Hpe]
      by (split; apply map_size_empty_inv; lia).
    rewrite Hwe, Hpe, !lookup_empty in *. by destruct (includes_space k). }
  assert (Hσ' : ∃ d, activeDict σ' = Some d
      ∧ words d = assign_entries (add_words a) (words (ensureDictShape (activeDict σ)))
      ∧ phrases d = assign_entries (add_phrases a) (phrases (ensureDictShape (activeDict σ)))).
  { unfold σ', after. rewrite addLinesClick_run. cbv zeta. fold es a. rewrite Hcount.
    by eexists. }
  destruct Hσ' as (d & Hd & Hwords & Hphrases).
  split; intros Hspace; rewrite Hspace in *.
  - intros w Hkey. unfold outcome. rewrite lookupWord_run, Hd, Hkey. simpl.
    rewrite Hwords, assign_entries_lookup, Hw.
    rewrite bool_decide_eq_false_2 by tauto. simpl.
    unfold str_eqb. by rewrite bool_decide_eq_false_2.
  - intros text Hkey. unfold outcome. rewrite lookupPhrase_run, Hd, Hkey. simpl.
    unfold get_property. rewrite Hphrases, assign_entries_lookup, Hp.
    rewrite bool_decide_eq_false_2 by tauto. simpl.
    unfold str_eqb. by rewrite bool_decide_eq_false_2.
Qed.

Lemma assign_entries_twice (entries : gmap jsstring jsstring) (o : gmap jsstring jsval) :
  assign_entries entries (assign_entries entries o) = assign_entries entries o.
Proof.
  apply map_eq. intros k. rewrite !assign_entries_lookup.
  destruct (entries !! k) as [v|]; [|done].
  destruct (decide (k = js "__proto__" ∧ o !! k = None)) as [Hko|Hko].
  - rewrite !(bool_decide_eq_true_2 (k = js "__proto__" ∧ o !! k = None)) by done.
    by rewrite bool_decide_eq_true_2 by tauto.
  - rewrite !(bool_decide_eq_false_2 (k = js "__proto__" ∧ o !! k = None)) by done.
    by rewrite bool_decide_eq_false_2 by (intros [_ ?]; done).
Qed.

(** X16. Adding the same lines a second time changes nothing: the second click
    counts the same entries and leaves the globals as the first click left
    them. *)
Theorem addLinesClick_twice σ raw :
  addLinesClick raw (after (addLinesClick raw) σ)
  = (outcome (addLinesClick raw) σ, after (addLinesClick raw) σ).
Proof.
  unfold outcome, after. rewrite !addLinesClick_run. cbv zeta. cbn [fst snd].
  destruct (_ =? 0) eqn:Hcount.
  - done.
  - cbn [activeDict ensureDictShape words phrases preferPhrases markUnknown].
    by rewrite !assign_entries_twice.
Qed.

(** X17. A line without an equals sign is passed over: it leaves the additions
    as they are. *)
Theorem line_without_equals_skipped line a :
  61%N ∉ line → parseQuickAddLine line a = Normal a.
Proof. intros Hno. by rewrite parseQuickAddLine_run, line_entry_equals. Qed.

(** X18. A text without any equals sign adds nothing: the click counts no
    entry and leaves the globals alone. *)
Theorem text_without_equals_adds_nothing raw σ :
  61%N ∉ raw → addLinesClick raw σ = (Normal 0, σ).
Proof.
  intros Hno. rewrite addLinesClick_run.
  assert (Hes : omap line_entry (lines_of raw) = []).
  { apply omap_all_None. intros line Hline. apply line_entry_equals.
    intros Hin. apply Hno. unfold lines_of in Hline.
    apply list_elem_of_filter in Hline as [_ Hline].
    apply list_elem_of_fmap in Hline as (l & -> & Hl).
    apply trim_elem in Hin. by eapply split_lines_elem. }
  by rewrite Hes.
Qed.

End AddLinesFurther.

(** ** Further examples *)

(** The first two tokens of [Hello, world]: a word, then a separator. *)
Lemma tokens_alternate_witness :
  tokenizeKeepPunct (js "Hello, world") !! 0 = Some (js "Hello")
  ∧ tokenizeKeepPunct (js "Hello, world") !! 1 = Some (js ", ")
  ∧ regexp_test word_only_re (js ", ") = negb (regexp_test word_only_re (js "Hello")).
Proof.
  split_and!; [vm_compute; reflexivity..|].
  apply (tokens_alternate (js "Hello, world") 0); vm_compute; reflexivity.
Defined.

(** The separator of [Hello, world] is one token on its own. *)
Lemma tokens_are_tokens_witness :
  js ", " ∈ tokenizeKeepPunct (js "Hello, world")
  ∧ tokenizeKeepPunct (js ", ") = [js ", "].
Proof.
  assert (Hin : js ", " ∈ tokenizeKeepPunct (js "Hello, world"))
    by (apply (list_elem_of_lookup_2 _ 1); vm_compute; reflexivity).
  split; [exact Hin|]. exact (tokens_are_tokens (js "Hello, world") (js ", ") Hin).
Defined.

(** The casing of [Hello] on [ya]. *)
Lemma applyCasing_letter_case_witness :
  forallb is_ascii (js "ya") = true
  ∧ ∃ r, applyCasing (H:=ascii_host) (js "Hello") (VStr (js "ya")) = Normal (VStr r)
         ∧ ascii_lower <$> r = ascii_lower <$> js "ya"
         ∧ length r = length (js "ya").
Proof.
  split; [reflexivity|].
  apply (applyCasing_letter_case (H:=ascii_host) (js "Hello") (js "ya")). reflexivity.
Defined.

(** [Hello] and [HELLO] on the sample dictionary. *)
Lemma translateToken_case_witness :
  ∃ r1 r2,
    outcome (translateToken (H:=ascii_host) (js "Hello")) (sample_store false false)
    = Normal (VStr r1)
    ∧ outcome (translateToken (H:=ascii_host) (js "HELLO")) (sample_store false false)
      = Normal (VStr r2)
    ∧ ascii_lower <$> r1 = ascii_lower <$> r2.
Proof.
  apply (translateToken_case (H:=ascii_host) (sample_store false false)
           (js "Hello") (js "HELLO")); [vm_compute; reflexivity..|].
  right. exists (js "ya"). split; vm_compute; reflexivity.
Defined.

(** An empty dictionary knows no word: the text comes back with its words
    in brackets. *)
Lemma unknown_text_passes_witness :
  activeDict (Store (Some empty_dict) false true None) = Some empty_dict
  ∧ outcome (translateText (H:=ascii_host) (js "Hi, you"))
      (Store (Some empty_dict) false true None)
    = Normal (VStr (js "[Hi], [you]")).
Proof.
  split; [reflexivity|].
  rewrite (unknown_text_passes (H:=ascii_host) (Store (Some empty_dict) false true None)
             empty_dict (js "Hi, you") eq_refl).
  - vm_compute; reflexivity.
  - intros tok Htok _.
    set (toks := tokenizeKeepPunct (js "Hi, you")) in Htok. vm_compute in toks. subst toks.
    repeat (apply elem_of_cons in Htok as [->|Htok]; [vm_compute; reflexivity|]).
    by apply elem_of_nil in Htok.
  - vm_compute; reflexivity.
Defined.


(** The line [hello = ya] on no dictionary at all: [Hello] is found. *)
Lemma added_entry_is_found_witness :
  named (js "hello") (omap (line_entry (H:=ascii_host)) (lines_of (js "hello = ya")))
  = Some (js "ya")
  ∧ outcome (lookupWord (H:=ascii_host) (js "Hello"))
      (after (addLinesClick (H:=ascii_host) (js "hello = ya")) (Store None false false None))
    = Normal (VStr (js "ya")).
Proof.
  assert (Hnamed : named (js "hello")
                     (omap (line_entry (H:=ascii_host)) (lines_of (js "hello = ya")))
                   = Some (js "ya")) by (vm_compute; reflexivity).
  split; [exact Hnamed|].
  pose proof (added_entry_is_found (H:=ascii_host) (Store None false false None)
                (js "hello = ya") (js "hello") (js "ya") Hnamed) as Hfound.
  cbv zeta in Hfound. destruct Hfound as [Hword _]; [discriminate|].
  apply Hword; vm_compute; reflexivity.
Defined.

(** A line of one word. *)
Lemma line_without_equals_skipped_witness :
  (61%N ∉ js "hello")
  ∧ parseQuickAddLine (H:=ascii_host) (js "hello") (Adds ∅ ∅) = Normal (Adds ∅ ∅).
Proof.
  assert (Hno : 61%N ∉ js "hello") by (apply (bool_decide_eq_false_1 _); vm_compute; reflexivity).
  split; [exact Hno|]. exact (line_without_equals_skipped (H:=ascii_host) _ _ Hno).
Defined.

(** A text of two words. *)
Lemma text_without_equals_adds_nothing_witness :
  (61%N ∉ js "hello ya")
  ∧ addLinesClick (H:=ascii_host) (js "hello ya") (sample_store true true)
    = (Normal 0, sample_store true true).
Proof.
  assert (Hno : 61%N ∉ js "hello ya") by (apply (bool_decide_eq_false_1 _); vm_compute; reflexivity).
  split; [exact Hno|]. exact (text_without_equals_adds_nothing (H:=ascii_host) _ _ Hno).
Defined.
